(** * web-index: inverted-index construction

    A shallow embedding of the index builders of the repository
    ([index/non_pos_index.py], [index/pos_index.py]) and of the crawling
    tokenizer ([index/abs_index.py]), with the properties of the
    specification stated over it.

    Python values are modelled as follows.
    - [str] is a list of Unicode code points ([N]).
    - [dict] (and [defaultdict]) is an association list in insertion
      order: assignment to a present key updates the binding in place, a
      new key goes to the end.
    - a method of an object is a function from the object's state to an
      outcome (an exception or a value) and the state it leaves behind.
    - [int] counters and document identifiers are [nat]; the float
      produced by [/] is a rational. *)

From Stdlib Require Import String Ascii.
From Stdlib Require Import List Arith NArith ZArith QArith Lia Bool Sorted.
Import ListNotations.

#[local] Open Scope nat_scope.
#[local] Open Scope list_scope.

(** ** Python strings *)

Definition char := N.
Definition pystr := list char.

(** An ASCII literal as a Python string. *)
Definition py (s : string) : pystr :=
  map N_of_ascii (list_ascii_of_string s).

Class EqDec (A : Type) := eq_dec : forall a b : A, {a = b} + {a <> b}.

#[global] Instance nat_EqDec : EqDec nat := Nat.eq_dec.
#[global] Instance char_EqDec : EqDec char := N.eq_dec.
#[global] Instance list_EqDec {A} `{EqDec A} : EqDec (list A) := list_eq_dec eq_dec.

Definition eqb {A} `{EqDec A} (a b : A) : bool :=
  if eq_dec a b then true else false.

(** The Unicode tables behind [str.lower], [str.isdigit], [str.split] and
    the regular-expression engine are not part of the repository: they are
    taken as an interface.  [str_lower] is a function on whole strings
    (lowercasing may change the length and looks at the context). *)
Class Unicode := {
  str_lower : pystr -> pystr;
  is_word : char -> bool;
  is_digit : char -> bool;
  is_space : char -> bool;
  ci_keep_ext : char -> bool;
  str_lower_nil : str_lower [] = []
}.

(** ** Insertion-ordered dictionaries *)

Module Dict.
Section Defs.
Context {K V : Type} `{EqDec K}.

Definition t := list (K * V).

Definition empty : t := [].

(** [d.get(k)] *)
Fixpoint get (d : t) (k : K) : option V :=
  match d with
  | [] => None
  | (k', v) :: d' => if eq_dec k' k then Some v else get d' k
  end.

(** [k in d] *)
Definition mem (d : t) (k : K) : bool :=
  match get d k with Some _ => true | None => false end.

(** [d[k] = v] *)
Fixpoint set (d : t) (k : K) (v : V) : t :=
  match d with
  | [] => [(k, v)]
  | (k', v') :: d' =>
      if eq_dec k' k then (k', v) :: d' else (k', v') :: set d' k v
  end.

(** [list(d.keys())] *)
Definition keys (d : t) : list K := map fst d.

(** A Python dict never holds a key twice. *)
Definition wf (d : t) : Prop := NoDup (keys d).

End Defs.
#[global] Arguments t : clear implicits.
End Dict.

(** ** Exceptions and stateful computations *)

Inductive exn : Type :=
| KeyError (key : pystr)
| ZeroDivisionError.

(** A computation on an object of state [S]: the outcome and the state
    left behind (a raised exception does not roll back earlier writes). *)
Definition M (S A : Type) : Type := S -> (exn + A) * S.

Definition ret {S A} (a : A) : M S A := fun s => (inr a, s).

Definition raise {S A} (e : exn) : M S A := fun s => (inl e, s).

Definition bind {S A B} (c : M S A) (k : A -> M S B) : M S B :=
  fun s => match c s with
           | (inl e, s') => (inl e, s')
           | (inr a, s') => k a s'
           end.

Definition modify {S} (f : S -> S) : M S unit := fun s => (inr tt, f s).

Notation "x <- c1 ;; c2" := (bind c1 (fun x => c2))
  (at level 61, c1 at next level, right associativity).
Notation "c1 ;; c2" := (bind c1 (fun _ => c2))
  (at level 61, right associativity).

(** [for x in l: body(x)] *)
Fixpoint for_each {S A} (body : A -> M S unit) (l : list A) : M S unit :=
  match l with
  | [] => ret tt
  | x :: l' => body x ;; for_each body l'
  end.

(** [enumerate(l)] *)
Fixpoint enumerate_from {A} (n : nat) (l : list A) : list (nat * A) :=
  match l with
  | [] => []
  | x :: l' => (n, x) :: enumerate_from (S n) l'
  end.

Definition enumerate {A} (l : list A) : list (nat * A) := enumerate_from 0 l.

(** [d[k]] on a plain dict: [KeyError] when the key is missing. *)
Definition getitem {S V} (d : Dict.t pystr V) (k : pystr) : M S V :=
  match Dict.get d k with
  | Some v => ret v
  | None => raise (KeyError k)
  end.

(** A document is a JSON object: field name to text. *)
Definition document := Dict.t pystr pystr.

Definition has_title (d : document) : Prop :=
  Dict.get d (py "title") <> None.

(** ** The tokenizer of the index builders

    [re.findall(r'\w+', text.lower())]: the maximal runs of word
    characters of the lowercased text, from left to right. *)

(** The run read so far ([cur], last character first) ends here. *)
Definition flush (cur : pystr) : list pystr :=
  match cur with
  | [] => []
  | _ :: _ => [rev cur]
  end.

(** The maximal runs of characters satisfying [p]. *)
Fixpoint runs (p : char -> bool) (cur : pystr) (s : pystr) : list pystr :=
  match s with
  | [] => flush cur
  | c :: s' =>
      if p c then runs p (c :: cur) s'
      else flush cur ++ runs p [] s'
  end.

Section Tokenizer.
Context `{Unicode}.

Definition findall_word (s : pystr) : list pystr := runs is_word [] s.

Definition tokenize (text : pystr) : list pystr :=
  findall_word (str_lower text).

End Tokenizer.

(** ** Statistics

    [calculate_statistics] has the same body in both builders; it works
    on local variables until the final assignment to [self.statistics]. *)

Record Statistics : Type := {
  num_documents : nat;
  total_tokens : nat;
  tokens_per_field : Dict.t pystr nat;
  avg_tokens_per_doc : Q
}.

(** [a / b] on ints: a float, here the exact quotient. *)
Definition truediv (a b : nat) : exn + Q :=
  if b =? 0 then inl ZeroDivisionError
  else inr (inject_Z (Z.of_nat a) / inject_Z (Z.of_nat b))%Q.

(** The count under [k], 0 for a missing key (what [d[k]] evaluates to on
    the [defaultdict(int)]). *)
Definition get_int (d : Dict.t pystr nat) (k : pystr) : nat :=
  match Dict.get d k with
  | Some n => n
  | None => 0
  end.

Section Stats.
Context `{Unicode}.

(** [for field, value in doc.items(): if field != 'url': ...] *)
Definition count_fields (doc : document) (tpf : Dict.t pystr nat)
  : Dict.t pystr nat :=
  fold_left
    (fun tpf '(field, value) =>
       if eqb field (py "url") then tpf
       else Dict.set tpf field (get_int tpf field + length (tokenize value)))
    doc tpf.

(** [for doc in documents: ...] on the locals [total_tokens] and
    [tokens_per_field]. *)
Fixpoint stats_loop (documents : list document) (total : nat)
    (tpf : Dict.t pystr nat) : exn + (nat * Dict.t pystr nat) :=
  match documents with
  | [] => inr (total, tpf)
  | doc :: rest =>
      match Dict.get doc (py "title") with
      | None => inl (KeyError (py "title"))
      | Some title =>
          stats_loop rest (total + length (tokenize title))
            (count_fields doc tpf)
      end
  end.

Definition compute_statistics (documents : list document)
  : exn + Statistics :=
  let num := length documents in
  match stats_loop documents 0 Dict.empty with
  | inl e => inl e
  | inr (total, tpf) =>
      match truediv total num with
      | inl e => inl e
      | inr avg =>
          inr {| num_documents := num;
                 total_tokens := total;
                 tokens_per_field := tpf;
                 avg_tokens_per_doc := avg |}
      end
  end.

End Stats.

(** ** Output files

    [with open(filename, 'w') as file: json.dump(obj, file, ...)]: the file
    is created or emptied, then the object is written.  The file system is
    a dictionary from file names to the objects dumped (the JSON text is not
    modelled); it is taken to accept every write. *)

Inductive dumped : Type :=
| EmptyFile
| DumpPostings (i : Dict.t pystr (list nat))
| DumpPositions (i : Dict.t pystr (Dict.t nat (list nat)))
| DumpStatistics (st : option Statistics).

Definition files := Dict.t pystr dumped.

(** What can stop the program: an exception of the builders, a missing
    attribute, a missing input file. *)
Inductive failure : Type :=
| Raised (e : exn)
| AttributeError (attr : pystr)
| FileNotFoundError (path : pystr).

(** ** [NonPositionalIndex] *)

Module NonPositionalIndex.

Record self : Type := {
  index : Dict.t pystr (list nat);
  statistics : option Statistics
}.

(** [__init__]: an empty [defaultdict(list)] and [{}] for the statistics. *)
Definition init : self := {| index := Dict.empty; statistics := None |}.

Definition set_index (s : self) (i : Dict.t pystr (list nat)) : self :=
  {| index := i; statistics := statistics s |}.

Definition set_statistics (s : self) (st : Statistics) : self :=
  {| index := index s; statistics := Some st |}.

(** The list under [token], the empty list for a token that is not a key
    (what [self.index[token]] evaluates to on the [defaultdict(list)]). *)
Definition postings (i : Dict.t pystr (list nat)) (token : pystr) : list nat :=
  match Dict.get i token with
  | Some p => p
  | None => []
  end.

(** [self.index[token].append(idx)] *)
Definition append_posting (i : Dict.t pystr (list nat)) (token : pystr)
    (idx : nat) : Dict.t pystr (list nat) :=
  Dict.set i token (postings i token ++ [idx]).

Section Methods.
Context `{Unicode}.
Variable stem : pystr -> pystr.

Definition build_index (documents : list document) : M self unit :=
  for_each
    (fun '(idx, doc) =>
       title <- getitem doc (py "title") ;;
       for_each
         (fun token =>
            modify (fun s => set_index s (append_posting (index s) token idx)))
         (tokenize title))
    (enumerate documents).

Definition calculate_statistics (documents : list document) : M self unit :=
  fun s =>
    match compute_statistics documents with
    | inl e => (inl e, s)
    | inr st => (inr tt, set_statistics s st)
    end.

(** [stem_index]: the dictionary handed to [json.dump]. *)
Definition stem_index (s : self) : Dict.t pystr (list nat) :=
  fold_left
    (fun stemmed_index '(term, p) => Dict.set stemmed_index (stem term) p)
    (index s) Dict.empty.

(** The whole of [stem_index]: the stemmed index is dumped to a file. *)
Definition stem_index_to_file (s : self) (fs : files) : files :=
  Dict.set fs (py "mon_stemmer.title.non_pos_index.json")
    (DumpPostings (stem_index s)).

End Methods.

Definition write_index_to_file (filename : pystr) (s : self) (fs : files)
  : files :=
  Dict.set fs filename (DumpPostings (index s)).

(** [self.statistics] is [{}] until [calculate_statistics] has run. *)
Definition write_statistics_to_file (filename : pystr) (s : self) (fs : files)
  : files :=
  Dict.set fs filename (DumpStatistics (statistics s)).

End NonPositionalIndex.

(** ** [PositionalIndex] *)

Module PositionalIndex.

Definition index_t := Dict.t pystr (Dict.t nat (list nat)).

(** [__init__] sets only [index]; [statistics] appears with the first
    call of [calculate_statistics]. *)
Record self : Type := {
  index : index_t;
  statistics : option Statistics
}.

Definition init : self := {| index := Dict.empty; statistics := None |}.

Definition set_index (s : self) (i : index_t) : self :=
  {| index := i; statistics := statistics s |}.

Definition set_statistics (s : self) (st : Statistics) : self :=
  {| index := index s; statistics := Some st |}.

Definition inner (i : index_t) (token : pystr) : Dict.t nat (list nat) :=
  match Dict.get i token with
  | Some m => m
  | None => Dict.empty
  end.

Definition positions (i : index_t) (token : pystr) (idx : nat) : list nat :=
  match Dict.get (inner i token) idx with
  | Some l => l
  | None => []
  end.

(** The body of the inner loop, one statement per definition. *)
Definition ensure_token (i : index_t) (token : pystr) : index_t :=
  if Dict.mem i token then i else Dict.set i token Dict.empty.

Definition ensure_doc (i : index_t) (token : pystr) (idx : nat) : index_t :=
  if Dict.mem (inner i token) idx then i
  else Dict.set i token (Dict.set (inner i token) idx []).

Definition append_position (i : index_t) (token : pystr) (idx position : nat)
  : index_t :=
  Dict.set i token
    (Dict.set (inner i token) idx (positions i token idx ++ [position])).

Definition record_position (i : index_t) (token : pystr) (idx position : nat)
  : index_t :=
  append_position (ensure_doc (ensure_token i token) token idx)
    token idx position.

Section Methods.
Context `{Unicode}.

Definition build_index (documents : list document) : M self unit :=
  for_each
    (fun '(idx, doc) =>
       title <- getitem doc (py "title") ;;
       for_each
         (fun '(position, token) =>
            modify (fun s =>
              set_index s (record_position (index s) token idx position)))
         (enumerate (tokenize title)))
    (enumerate documents).

Definition calculate_statistics (documents : list document) : M self unit :=
  fun s =>
    match compute_statistics documents with
    | inl e => (inl e, s)
    | inr st => (inr tt, set_statistics s st)
    end.

End Methods.

Definition write_index_to_file (filename : pystr) (s : self) (fs : files)
  : files :=
  Dict.set fs filename (DumpPositions (index s)).

(** The attribute [statistics] does not exist before [calculate_statistics]
    has run: the file is opened, then reading the attribute fails. *)
Definition write_statistics_to_file (filename : pystr) (s : self) (fs : files)
  : (failure + unit) * files :=
  match statistics s with
  | Some st => (inr tt, Dict.set fs filename (DumpStatistics (Some st)))
  | None => (inl (AttributeError (py "statistics")), Dict.set fs filename EmptyFile)
  end.

End PositionalIndex.

(** ** The crawling tokenizer, [AbstractIndex.tokenize] *)

Module AbstractIndex.

(** The attributes [tokenize] reads or writes. *)
Record self : Type := {
  tokens : list pystr;
  nb_tokens : nat;
  stopwords : option (list pystr);
  stemmer : option (pystr -> pystr)
}.

Definition in_range (lo hi c : N) : bool := ((lo <=? c) && (c <=? hi))%N.

(** The class [[-'0-9a-zÀ-ÿ]] under [(?i)], on Latin-1. *)
Definition latin1_class (c : char) : bool :=
  (c =? 45)%N || (c =? 39)%N || in_range 48 57 c || in_range 65 90 c
  || in_range 97 122 c || in_range 192 255 c.

(** The look-ahead [(?![×Þß÷þø])] under [(?i)], on Latin-1: the six
    characters and the capital of [ø]. *)
Definition latin1_excluded (c : char) : bool :=
  existsb (N.eqb c) [215; 216; 222; 223; 247; 248; 254]%N.

(** [string.punctuation]: the ASCII characters 33-47, 58-64, 91-96 and
    123-126. *)
Definition punctuation : pystr :=
  map N.of_nat (seq 33 15 ++ seq 58 7 ++ seq 91 6 ++ seq 123 4).

Section Tokenize.
Context `{Unicode}.

(** One iteration of [(?:(?![×Þß÷þø])[-'0-9a-zÀ-ÿ])]. *)
Definition keep_char (c : char) : bool :=
  if (c <? 256)%N then latin1_class c && negb (latin1_excluded c)
  else ci_keep_ext c.

Fixpoint drop_while (p : char -> bool) (s : pystr) : pystr :=
  match s with
  | [] => []
  | c :: s' => if p c then drop_while p s' else s
  end.

(** [re.sub] of the pattern [(?i)^(?:(?![×Þß÷þø])[-'0-9a-zÀ-ÿ])+$] by the
    empty string.  The pattern is anchored at both ends, so it matches at
    most once, from the start of the text: a non-empty run of class
    characters that reaches the end of the text or the newline that ends
    it.  The match is deleted. *)
Definition sub_anchored (text : pystr) : pystr :=
  let rest := drop_while keep_char text in
  if (length rest <? length text)
     && (eqb rest [] || eqb rest [10%N])
  then rest else text.

(** [re.sub] of a curly apostrophe (U+2019) or an ellipsis (U+2026) by a
    space. *)
Definition sub_atypical (text : pystr) : pystr :=
  map (fun c => if (c =? 8217)%N || (c =? 8230)%N then 32%N else c) text.

(** [' ' if char in string.punctuation or char.isdigit() else char] *)
Definition blank_punct_digit (c : char) : char :=
  if existsb (N.eqb c) punctuation || is_digit c then 32%N else c.

(** [str.split()] *)
Definition split (s : pystr) : list pystr :=
  runs (fun c => negb (is_space c)) [] s.

(** [for token in tokens: if token not in self.tokens: ...] *)
Definition record_token (s : self) (token : pystr) : self :=
  if existsb (eqb token) (tokens s) then s
  else {| tokens := tokens s ++ [token];
          nb_tokens := nb_tokens s + 1;
          stopwords := stopwords s;
          stemmer := stemmer s |}.

Definition tokenize (text : pystr) : M self (list pystr) :=
  fun s =>
    let text := sub_anchored text in
    let text := sub_atypical text in
    let toks := split (str_lower (map blank_punct_digit text)) in
    let s' := fold_left record_token toks s in
    let toks :=
      match stopwords s' with
      | Some (w :: ws) =>
          filter (fun token => negb (existsb (eqb (str_lower token)) (w :: ws)))
            toks
      | _ => toks
      end in
    let toks :=
      match stemmer s' with
      | Some stem => map stem toks
      | None => toks
      end in
    (inr toks, s').

End Tokenize.
End AbstractIndex.

(** ** [utils.py] and [main.py] *)

(** [get_docs_from_json]: [input] is the parsed content of the file, when
    the file exists. *)
Definition get_docs_from_json (file_path : pystr)
    (input : option (list document)) : failure + list document :=
  match input with
  | Some data => inr data
  | None => inl (FileNotFoundError file_path)
  end.

Section Main.
Context `{Unicode}.
Variable stem : pystr -> pystr.

(** [main], the flag [--pos_idx] being [pos_idx]. *)
Definition main (pos_idx : bool) (input : option (list document))
    (fs : files) : (failure + unit) * files :=
  match get_docs_from_json (py "data/crawled_urls.json") input with
  | inl f => (inl f, fs)
  | inr documents =>
      if pos_idx then
        match PositionalIndex.build_index documents PositionalIndex.init with
        | (inl e, _) => (inl (Raised e), fs)
        | (inr _, b) =>
            match PositionalIndex.calculate_statistics documents b with
            | (inl e, _) => (inl (Raised e), fs)
            | (inr _, b) =>
                let fs :=
                  PositionalIndex.write_index_to_file
                    (py "title.pos_index.json") b fs in
                PositionalIndex.write_statistics_to_file
                  (py "metadata.json") b fs
            end
        end
      else
        match NonPositionalIndex.build_index documents
                NonPositionalIndex.init with
        | (inl e, _) => (inl (Raised e), fs)
        | (inr _, b) =>
            match NonPositionalIndex.calculate_statistics documents b with
            | (inl e, _) => (inl (Raised e), fs)
            | (inr _, b) =>
                let fs :=
                  NonPositionalIndex.write_index_to_file
                    (py "title.non_pos_index.json") b fs in
                let fs := NonPositionalIndex.stem_index_to_file stem b fs in
                (inr tt,
                 NonPositionalIndex.write_statistics_to_file
                   (py "metadata.json") b fs)
            end
        end
  end.

End Main.

(** ** The tables on ASCII

    An instance of the interface that is Python's on ASCII text, used to
    run the model on examples. *)

Definition ascii_lower (c : char) : char :=
  if AbstractIndex.in_range 65 90 c then (c + 32)%N else c.

Definition ascii_is_word (c : char) : bool :=
  AbstractIndex.in_range 48 57 c || AbstractIndex.in_range 65 90 c
  || AbstractIndex.in_range 97 122 c || (c =? 95)%N.

Definition ascii_is_space (c : char) : bool :=
  AbstractIndex.in_range 9 13 c || AbstractIndex.in_range 28 32 c.

#[local] Instance ascii_tables : Unicode := {|
  str_lower := map ascii_lower;
  is_word := ascii_is_word;
  is_digit := AbstractIndex.in_range 48 57;
  is_space := ascii_is_space;
  ci_keep_ext := fun _ => false;
  str_lower_nil := eq_refl
|}.

(** * Notions used to state the properties *)

Section ScanNotions.
Context `{Unicode}.

(** The token sequence of a document's title. *)
Definition doc_tokens (d : document) : list pystr :=
  match Dict.get d (py "title") with
  | Some title => tokenize title
  | None => []
  end.

(** Every token occurrence with the identifier of its document, documents
    in source order and tokens from left to right. *)
Definition scan_from (n : nat) (docs : list document) : list (nat * pystr) :=
  flat_map (fun '(idx, d) => map (pair idx) (doc_tokens d))
    (enumerate_from n docs).

Definition scan (docs : list document) : list (nat * pystr) := scan_from 0 docs.

(** The identifiers of the occurrences of [token], in scan order. *)
Definition select (token : pystr) (occ : list (nat * pystr)) : list nat :=
  map fst (filter (fun o => eqb (snd o) token) occ).

Definition occurrences (token : pystr) (docs : list document) : list nat :=
  select token (scan docs).

Definition corpus_size (docs : list document) : nat :=
  list_sum (map (fun d => length (doc_tokens d)) docs).

End ScanNotions.

Definition lacks_title (d : document) : Prop :=
  Dict.get d (py "title") = None.

(** An outcome that is an error raised by a guard of the program.  The
    methods contain no [raise] statement: [ZeroDivisionError] can only come
    from the division itself. *)
Definition guarded_error {A} (o : exn + A) : bool :=
  match o with
  | inl ZeroDivisionError => false
  | inl (KeyError _) => true
  | inr _ => false
  end.

Section NonPositionalNotions.
Import NonPositionalIndex.
Context `{Unicode}.

(** The index after the tokens of document [idx] have been appended. *)
Definition add_tokens (i : Dict.t pystr (list nat)) (idx : nat)
    (toks : list pystr) : Dict.t pystr (list nat) :=
  fold_left (fun i token => append_posting i token idx) toks i.

(** The index after the documents [n], [n+1], ... have been walked. *)
Fixpoint index_after (n : nat) (docs : list document)
    (i : Dict.t pystr (list nat)) : Dict.t pystr (list nat) :=
  match docs with
  | [] => i
  | d :: rest => index_after (S n) rest (add_tokens i n (doc_tokens d))
  end.

(** The number of postings entries of an index. *)
Definition total_postings (i : Dict.t pystr (list nat)) : nat :=
  list_sum (map (fun kv => length (snd kv)) i).

End NonPositionalNotions.

Section StatisticsNotions.
Context `{Unicode}.

(** [tokens_per_field] after the documents have been counted. *)
Definition fields_after (docs : list document) (tpf : Dict.t pystr nat)
  : Dict.t pystr nat :=
  fold_left (fun tpf d => count_fields d tpf) docs tpf.

(** The tokens a document adds to the count of field [k]. *)
Definition field_tokens (k : pystr) (d : document) : nat :=
  list_sum
    (map (fun fv => if eqb (fst fv) k then length (tokenize (snd fv)) else 0) d).

End StatisticsNotions.

Section StemmingNotions.
Import NonPositionalIndex.
Variable stem : pystr -> pystr.

(** The loop of [stem_index] over some entries, from [acc]. *)
Definition stem_entries (entries : Dict.t pystr (list nat))
    (acc : Dict.t pystr (list nat)) : Dict.t pystr (list nat) :=
  fold_left
    (fun stemmed_index '(term, p) => Dict.set stemmed_index (stem term) p)
    entries acc.

End StemmingNotions.

Section PositionalNotions.
Import PositionalIndex.
Context `{Unicode}.

(** The pair [(token, idx)] has a position list in the index. *)
Definition present (i : index_t) (token : pystr) (idx : nat) : bool :=
  Dict.mem (inner i token) idx.

(** The index after the tokens of document [idx] have been recorded. *)
Definition add_positions (i : index_t) (idx : nat) (occ : list (nat * pystr))
  : index_t :=
  fold_left (fun i '(position, token) => record_position i token idx position)
    occ i.

(** The index after the documents [n], [n+1], ... have been walked. *)
Fixpoint pindex_after (n : nat) (docs : list document) (i : index_t)
  : index_t :=
  match docs with
  | [] => i
  | d :: rest =>
      pindex_after (S n) rest (add_positions i n (enumerate (doc_tokens d)))
  end.

(** The positions of [token] in document [j] of [docs], the first document
    being number [n]. *)
Definition doc_positions (n : nat) (docs : list document) (token : pystr)
    (j : nat) : list nat :=
  if j <? n then []
  else match nth_error docs (j - n) with
       | Some d => select token (enumerate (doc_tokens d))
       | None => []
       end.

(** Every position list held by the index has an element. *)
Definition lists_nonempty (i : index_t) : Prop :=
  forall t j, present i t j = true -> positions i t j <> [].

End PositionalNotions.

(** The distinct elements of a list, in the order of their first
    occurrence. *)
Fixpoint first_seen (l : list pystr) : list pystr :=
  match l with
  | [] => []
  | x :: rest => x :: filter (fun y => negb (eqb y x)) (first_seen rest)
  end.

(** The index after the occurrences [occ] have been appended one by one. *)
Definition append_all (occ : list (nat * pystr))
    (i : Dict.t pystr (list nat)) : Dict.t pystr (list nat) :=
  fold_left
    (fun i o => NonPositionalIndex.append_posting i (snd o) (fst o)) occ i.

Section FieldNotions.
Context `{Unicode}.

(** The number of tokens of field [k] over the documents that have it. *)
Definition field_total (k : pystr) (docs : list document) : nat :=
  list_sum
    (map (fun d : document =>
            match Dict.get d k with
            | Some v => length (tokenize v)
            | None => 0
            end) docs).

End FieldNotions.

Section CrawlingNotions.
Import AbstractIndex.
Context `{Unicode}.

(** The tokens [tokenize] finds in a text, before stopwords are removed
    and stems are taken. *)
Definition raw_tokens (text : pystr) : list pystr :=
  split (str_lower (map blank_punct_digit (sub_atypical (sub_anchored text)))).

(** The vocabulary of a crawler: [nb_tokens] counts the tokens of
    [self.tokens], which has no token twice. *)
Definition vocabulary_ok (s : self) : Prop :=
  nb_tokens s = length (tokens s) /\ NoDup (tokens s).

End CrawlingNotions.

(** ** Concrete inputs *)

(** The two documents of the specification's scenarios. *)
Definition scenario : list document :=
  [ [(py "title", py "Le chat noir"); (py "url", py "u1")];
    [(py "title", py "Un chat blanc"); (py "url", py "u2")] ].

(** A crawler with the default options (no stopword list, no stemmer)
    that has not tokenized anything yet. *)
Definition crawler : AbstractIndex.self :=
  {| AbstractIndex.tokens := [];
     AbstractIndex.nb_tokens := 0;
     AbstractIndex.stopwords := None;
     AbstractIndex.stemmer := None |}.

(** A toy stemmer: a final [s] is dropped. *)
Definition drop_final_s (t : pystr) : pystr :=
  match rev t with
  | 115%N :: r => rev r
  | _ => t
  end.

Definition plural_index : NonPositionalIndex.self :=
  {| NonPositionalIndex.index :=
       [(py "chat", [0]); (py "chats", [1]); (py "noir", [0])];
     NonPositionalIndex.statistics := None |}.

(** A crawler that removes the stopword [le]. *)
Definition crawler_le : AbstractIndex.self :=
  {| AbstractIndex.tokens := [];
     AbstractIndex.nb_tokens := 0;
     AbstractIndex.stopwords := Some [py "le"];
     AbstractIndex.stemmer := None |}.

(** An index without two tokens of the same stem under [drop_final_s]. *)
Definition singular_index : NonPositionalIndex.self :=
  {| NonPositionalIndex.index := [(py "chats", [0; 1]); (py "noir", [0])];
     NonPositionalIndex.statistics := None |}.

(** A list whose second document has no title. *)
Definition untitled : list document :=
  [ [(py "title", py "a")]; [(py "url", py "u2")] ].

(** * Properties *)

Ltac all_titles :=
  repeat (apply Forall_cons;
          [let E := fresh in intro E; vm_compute in E; discriminate E|]);
  apply Forall_nil.

Ltac all_wf :=
  repeat (apply Forall_cons;
          [unfold Dict.wf;
           repeat (apply NoDup_cons; [vm_compute; intuition discriminate|]);
           apply NoDup_nil|]);
  apply Forall_nil.

(** ** Equality tests and dictionaries *)

Lemma eqb_true_iff {A} `{EqDec A} (a b : A) : eqb a b = true <-> a = b.
Proof. unfold eqb. destruct (eq_dec a b); split; congruence. Qed.

Lemma eqb_false_iff {A} `{EqDec A} (a b : A) : eqb a b = false <-> a <> b.
Proof. unfold eqb. destruct (eq_dec a b); split; congruence. Qed.

Lemma eqb_refl {A} `{EqDec A} (a : A) : eqb a a = true.
Proof. now apply eqb_true_iff. Qed.

Module DictFacts.
Section Facts.
Import Dict.
Context {K V : Type} `{EqDec K}.
Implicit Types (d : Dict.t K V) (k : K) (v : V).

Lemma get_set_same d k v : get (set d k v) k = Some v.
Proof.
  induction d as [|[k' v'] d IH]; simpl.
  - destruct (eq_dec k k); congruence.
  - destruct (eq_dec k' k) as [E|E]; simpl.
    + destruct (eq_dec k' k); congruence.
    + destruct (eq_dec k' k); congruence.
Qed.

Lemma get_set_other d k k' v : k <> k' -> get (set d k v) k' = get d k'.
Proof.
  intros N. induction d as [|[k0 v0] d IH]; simpl.
  - destruct (eq_dec k k'); congruence.
  - destruct (eq_dec k0 k) as [E|E]; simpl.
    + subst. destruct (eq_dec k k'); congruence.
    + destruct (eq_dec k0 k'); congruence.
Qed.

Lemma get_None_keys d k : get d k = None <-> ~ In k (keys d).
Proof.
  induction d as [|[k0 v0] d IH]; simpl.
  - tauto.
  - destruct (eq_dec k0 k) as [E|E].
    + split; [discriminate | intros N; exfalso; apply N; now left].
    + rewrite IH. tauto.
Qed.

Lemma mem_true_keys d k : mem d k = true <-> In k (keys d).
Proof.
  unfold mem. destruct (get d k) eqn:E.
  - split; [intros _ | reflexivity].
    destruct (in_dec eq_dec k (keys d)) as [I|I]; [exact I|].
    apply get_None_keys in I. congruence.
  - split; [discriminate|]. intros I. apply get_None_keys in E. contradiction.
Qed.

(** Assignment keeps the order of the keys; a new key goes last. *)
Lemma keys_set d k v :
  keys (set d k v) = if mem d k then keys d else keys d ++ [k].
Proof.
  unfold mem. induction d as [|[k0 v0] d IH]; simpl; [reflexivity|].
  destruct (eq_dec k0 k) as [E|E]; simpl; [reflexivity|].
  rewrite IH. now destruct (get d k).
Qed.

Lemma wf_set d k v : wf d -> wf (set d k v).
Proof.
  unfold wf. intros W. rewrite keys_set.
  destruct (mem d k) eqn:E; [exact W|].
  assert (~ In k (keys d)) as NI.
  { intros I. apply mem_true_keys in I. congruence. }
  clear E. induction (keys d) as [|a l IH]; simpl.
  - constructor; [tauto | constructor].
  - inversion W; subst. constructor.
    + rewrite in_app_iff. simpl. intros [I|[I|[]]]; [contradiction|].
      subst. apply NI. now left.
    + apply IH; [assumption|]. intros I. apply NI. now right.
Qed.

Lemma get_Some_In d k v : get d k = Some v -> In (k, v) d.
Proof.
  induction d as [|[k0 v0] d IH]; simpl; [discriminate|].
  destruct (eq_dec k0 k); intros E.
  - left. congruence.
  - right. auto.
Qed.

Lemma In_get_wf d k v : wf d -> In (k, v) d -> get d k = Some v.
Proof.
  unfold wf. induction d as [|[k0 v0] d IH]; simpl; [tauto|].
  intros W [E|I]; inversion W; subst.
  - inversion E; subst. destruct (eq_dec k k); congruence.
  - destruct (eq_dec k0 k) as [E|E]; [|auto].
    subst. exfalso. apply H2. change k with (fst (k, v)). now apply in_map.
Qed.

End Facts.
End DictFacts.

(** ** Loops *)

Lemma for_each_modify {S A} (f : A -> S -> S) (l : list A) (s : S) :
  for_each (fun x => modify (f x)) l s
  = (inr tt, fold_left (fun s x => f x s) l s).
Proof.
  revert s. induction l as [|x l IH]; intros s; simpl; [reflexivity|].
  unfold bind, modify at 1. apply IH.
Qed.

Lemma enumerate_from_length {A} (n : nat) (l : list A) :
  length (enumerate_from n l) = length l.
Proof.
  revert n. induction l as [|x l IH]; intros n; simpl; [reflexivity|].
  now rewrite IH.
Qed.

Lemma enumerate_from_app {A} (n : nat) (l1 l2 : list A) :
  enumerate_from n (l1 ++ l2)
  = enumerate_from n l1 ++ enumerate_from (n + length l1) l2.
Proof.
  revert n. induction l1 as [|x l1 IH]; intros n; simpl.
  - now rewrite Nat.add_0_r.
  - rewrite IH. now rewrite Nat.add_succ_r.
Qed.

(** ** What a scan of the corpus sees *)

Section Scan.
Context `{Unicode}.

Lemma select_app token l1 l2 :
  select token (l1 ++ l2) = select token l1 ++ select token l2.
Proof. unfold select. now rewrite filter_app, map_app. Qed.

Lemma scan_from_cons n d docs :
  scan_from n (d :: docs) = map (pair n) (doc_tokens d) ++ scan_from (S n) docs.
Proof. reflexivity. Qed.

Lemma select_doc token n toks :
  select token (map (pair n) toks) = repeat n (count_occ eq_dec toks token).
Proof.
  unfold select. induction toks as [|t toks IH]; simpl; [reflexivity|].
  unfold eqb at 1. simpl. destruct (eq_dec t token); simpl; now rewrite IH.
Qed.

Lemma count_occ_repeat (n m k : nat) :
  count_occ Nat.eq_dec (repeat n k) m = if Nat.eq_dec n m then k else 0.
Proof.
  induction k as [|k IH]; simpl.
  - now destruct (Nat.eq_dec n m).
  - destruct (Nat.eq_dec n m); simpl; rewrite IH;
      destruct (Nat.eq_dec n m); congruence.
Qed.

(** In the postings of a token, a document identifier is counted once per
    occurrence of the token in that document. *)
Lemma count_select_scan token docs : forall n idx,
  count_occ Nat.eq_dec (select token (scan_from n docs)) idx
  = if idx <? n then 0
    else match nth_error docs (idx - n) with
         | Some d => count_occ eq_dec (doc_tokens d) token
         | None => 0
         end.
Proof.
  induction docs as [|d docs IH]; intros n idx.
  - simpl. destruct (idx <? n); [reflexivity|]. now destruct (idx - n).
  - rewrite scan_from_cons, select_app, count_occ_app, select_doc.
    rewrite count_occ_repeat, IH.
    destruct (Nat.eq_dec n idx) as [E|E].
    + subst. rewrite Nat.ltb_irrefl, Nat.sub_diag. simpl.
      assert ((idx <? S idx) = true) as -> by (apply Nat.ltb_lt; lia). lia.
    + destruct (idx <? n) eqn:L.
      * apply Nat.ltb_lt in L.
        assert ((idx <? S n) = true) as -> by (apply Nat.ltb_lt; lia).
        reflexivity.
      * apply Nat.ltb_ge in L.
        assert ((idx <? S n) = false) as -> by (apply Nat.ltb_ge; lia).
        replace (idx - n) with (S (idx - S n)) by lia. reflexivity.
Qed.

Lemma select_nonempty token occ :
  select token occ <> [] <-> In token (map snd occ).
Proof.
  unfold select. induction occ as [|[i t] occ IH]; simpl; [tauto|].
  unfold eqb at 1. simpl. destruct (eq_dec t token) as [E|E]; simpl.
  - split; [intros _; now left | discriminate].
  - rewrite IH. tauto.
Qed.

Lemma length_scan_from n docs : length (scan_from n docs) = corpus_size docs.
Proof.
  revert n. induction docs as [|d docs IH]; intros n; [reflexivity|].
  rewrite scan_from_cons, length_app, length_map, IH. reflexivity.
Qed.

End Scan.

(** ** The non-positional builder *)

Section NonPositional.
Import NonPositionalIndex.
Context `{Unicode}.

Lemma build_tokens_run idx toks s :
  for_each
    (fun token =>
       modify (fun s => set_index s (append_posting (index s) token idx)))
    toks s
  = (inr tt, set_index s (add_tokens (index s) idx toks)).
Proof.
  rewrite for_each_modify. f_equal.
  revert s. induction toks as [|t toks IH]; intros s; simpl.
  - now destruct s.
  - rewrite IH. reflexivity.
Qed.

Lemma build_docs_run docs : forall n s,
  Forall has_title docs ->
  for_each
    (fun '(idx, doc) =>
       title <- getitem doc (py "title") ;;
       for_each
         (fun token =>
            modify (fun s => set_index s (append_posting (index s) token idx)))
         (tokenize title))
    (enumerate_from n docs) s
  = (inr tt, set_index s (index_after n docs (index s))).
Proof.
  induction docs as [|d docs IH]; intros n s T; simpl.
  - now destruct s.
  - inversion T as [|? ? Td Tr]; subst.
    unfold has_title in Td. unfold bind at 1. unfold bind at 1.
    unfold getitem, doc_tokens.
    destruct (Dict.get d (py "title")) as [title|]; [|congruence].
    unfold ret at 1. rewrite build_tokens_run.
    rewrite IH by assumption. reflexivity.
Qed.

Lemma build_index_run docs s :
  Forall has_title docs ->
  build_index docs s = (inr tt, set_index s (index_after 0 docs (index s))).
Proof. intros T. unfold build_index, enumerate. now apply build_docs_run. Qed.

Lemma postings_append i token idx t :
  postings (append_posting i token idx) t
  = postings i t ++ (if eqb token t then [idx] else []).
Proof.
  unfold append_posting, postings at 1. unfold eqb.
  destruct (eq_dec token t) as [E|E].
  - subst. now rewrite DictFacts.get_set_same.
  - rewrite DictFacts.get_set_other by assumption.
    fold (postings i t). now rewrite app_nil_r.
Qed.

Lemma add_tokens_cons i idx token toks :
  add_tokens i idx (token :: toks)
  = add_tokens (append_posting i token idx) idx toks.
Proof. reflexivity. Qed.

Lemma postings_add_tokens t idx toks : forall i,
  postings (add_tokens i idx toks) t
  = postings i t ++ select t (map (pair idx) toks).
Proof.
  induction toks as [|token toks IH]; intros i.
  - simpl. now rewrite app_nil_r.
  - rewrite add_tokens_cons, IH, postings_append, <- app_assoc.
    f_equal. unfold select. simpl. now destruct (eqb token t).
Qed.

Lemma postings_index_after t docs : forall n i,
  postings (index_after n docs i) t
  = postings i t ++ select t (scan_from n docs).
Proof.
  induction docs as [|d docs IH]; intros n i; simpl.
  - now rewrite app_nil_r.
  - rewrite IH, postings_add_tokens, scan_from_cons, select_app.
    now rewrite app_assoc.
Qed.

Lemma mem_append i token idx t :
  Dict.mem (append_posting i token idx) t = Dict.mem i t || eqb token t.
Proof.
  unfold append_posting, Dict.mem, eqb.
  destruct (eq_dec token t) as [E|E].
  - subst. rewrite DictFacts.get_set_same. now rewrite orb_true_r.
  - rewrite DictFacts.get_set_other by assumption. now rewrite orb_false_r.
Qed.

Lemma mem_add_tokens t idx toks : forall i,
  Dict.mem (add_tokens i idx toks) t = Dict.mem i t || existsb (fun x => eqb x t) toks.
Proof.
  induction toks as [|token toks IH]; intros i.
  - simpl. now rewrite orb_false_r.
  - rewrite add_tokens_cons, IH, mem_append. simpl. now rewrite orb_assoc.
Qed.

Lemma mem_index_after t docs : forall n i,
  Dict.mem (index_after n docs i) t
  = Dict.mem i t || existsb (fun o => eqb (snd o) t) (scan_from n docs).
Proof.
  induction docs as [|d docs IH]; intros n i; simpl.
  - now rewrite orb_false_r.
  - rewrite IH, mem_add_tokens, scan_from_cons, existsb_app, orb_assoc.
    f_equal. f_equal. induction (doc_tokens d) as [|x l IHl]; simpl; congruence.
Qed.

Lemma existsb_select t occ :
  existsb (fun o => eqb (snd o) t) occ = true <-> select t occ <> [].
Proof.
  unfold select. induction occ as [|o occ IH]; simpl.
  - split; [discriminate | congruence].
  - destruct (eqb (snd o) t); simpl; [|exact IH].
    split; [discriminate | reflexivity].
Qed.

(** C1. Built on a fresh [NonPositionalIndex] from documents that all have
    a title, the index maps every token to the identifiers of the
    occurrences of that token in scan order (documents in source order with
    identifiers from 0, the tokens of the title from left to right, one
    identifier per occurrence).  So a token is a key exactly when it
    occurs, and in its postings the identifier of a document is repeated
    as many times as the token occurs in that document's title. *)
Theorem build_index_postings (docs : list document) :
  Forall has_title docs ->
  exists s,
    build_index docs init = (inr tt, s) /\
    forall token,
      postings (index s) token = occurrences token docs /\
      (Dict.mem (index s) token = true <-> In token (map snd (scan docs))) /\
      (forall idx d, nth_error docs idx = Some d ->
         count_occ Nat.eq_dec (postings (index s) token) idx
         = count_occ eq_dec (doc_tokens d) token) /\
      (forall idx, In idx (postings (index s) token) ->
         exists d, nth_error docs idx = Some d /\ In token (doc_tokens d)).
Proof.
  intros T. eexists. split; [now apply build_index_run|].
  intros token. simpl.
  assert (postings (index_after 0 docs Dict.empty) token
          = occurrences token docs) as P.
  { rewrite postings_index_after. reflexivity. }
  assert (forall idx,
            count_occ Nat.eq_dec (occurrences token docs) idx
            = match nth_error docs idx with
              | Some d => count_occ eq_dec (doc_tokens d) token
              | None => 0
              end) as C.
  { intros idx. unfold occurrences, scan. rewrite count_select_scan.
    simpl. now rewrite Nat.sub_0_r. }
  repeat split.
  - exact P.
  - rewrite mem_index_after. simpl. rewrite existsb_select.
    now rewrite select_nonempty.
  - rewrite mem_index_after. simpl. rewrite existsb_select.
    now rewrite select_nonempty.
  - intros idx d E. rewrite P, C, E. reflexivity.
  - intros idx I. rewrite P in I.
    apply (count_occ_In Nat.eq_dec) in I. rewrite C in I.
    destruct (nth_error docs idx) as [d|]; [|lia].
    exists d. split; [reflexivity|].
    now apply (count_occ_In eq_dec).
Qed.

Lemma build_docs_fail docs : forall n s,
  Exists lacks_title docs ->
  fst (for_each
         (fun '(idx, doc) =>
            title <- getitem doc (py "title") ;;
            for_each
              (fun token =>
                 modify (fun s =>
                   set_index s (append_posting (index s) token idx)))
              (tokenize title))
         (enumerate_from n docs) s)
  = inl (KeyError (py "title")).
Proof.
  induction docs as [|d docs IH]; intros n s E.
  - inversion E.
  - simpl. unfold bind at 1. unfold bind at 1. unfold getitem.
    destruct (Dict.get d (py "title")) as [title|] eqn:G.
    + unfold ret at 1. rewrite build_tokens_run. apply IH.
      inversion E as [? ? L|? ? L]; subst; [|exact L].
      unfold lacks_title in L. congruence.
    + reflexivity.
Qed.

(** C7. A document without the field [title] makes [build_index] raise
    [KeyError('title')], the exception that signals the missing field; on
    an empty list of documents it returns normally and leaves the index of
    a fresh builder empty. *)
Theorem build_index_missing_field :
  (forall docs s,
     Exists lacks_title docs ->
     fst (build_index docs s) = inl (KeyError (py "title"))) /\
  build_index [] init = (inr tt, init) /\
  index init = Dict.empty.
Proof.
  split; [|split; reflexivity].
  intros docs s E. unfold build_index, enumerate. now apply build_docs_fail.
Qed.

Lemma keys_append_present i token idx :
  Dict.mem i token = true ->
  Dict.keys (append_posting i token idx) = Dict.keys i.
Proof.
  intros P. unfold append_posting. rewrite DictFacts.keys_set. now rewrite P.
Qed.

Lemma keys_add_tokens_present idx toks : forall i,
  (forall t, In t toks -> Dict.mem i t = true) ->
  Dict.keys (add_tokens i idx toks) = Dict.keys i.
Proof.
  induction toks as [|token toks IH]; intros i P; [reflexivity|].
  rewrite add_tokens_cons, IH.
  - apply keys_append_present. apply P. now left.
  - intros t I. rewrite mem_append, P; [reflexivity | now right].
Qed.

Lemma keys_index_after_present docs : forall n i,
  (forall t, In t (map snd (scan_from n docs)) -> Dict.mem i t = true) ->
  Dict.keys (index_after n docs i) = Dict.keys i.
Proof.
  induction docs as [|d docs IH]; intros n i P; [reflexivity|].
  simpl. rewrite scan_from_cons in P.
  assert (forall t, In t (doc_tokens d) -> Dict.mem i t = true) as Pd.
  { intros t I. apply P. rewrite map_app, in_app_iff. left.
    rewrite map_map. simpl. now rewrite map_id. }
  rewrite IH; [now apply keys_add_tokens_present|].
  intros t I. rewrite mem_add_tokens, P; [reflexivity|].
  rewrite map_app, in_app_iff. now right.
Qed.

(** C8, as the code has it.  From a fresh builder the index is a function
    of the documents, so two runs give the same index.  On one builder
    [build_index] is not idempotent: a second call walks the documents
    again and appends to the lists already there, so every postings list
    is the list of the first call twice; the keys and their order stay. *)
Theorem build_index_twice (docs : list document) :
  Forall has_title docs ->
  exists s1 s2,
    build_index docs init = (inr tt, s1) /\
    (forall s1', build_index docs init = (inr tt, s1') -> s1' = s1) /\
    build_index docs s1 = (inr tt, s2) /\
    Dict.keys (index s2) = Dict.keys (index s1) /\
    forall token,
      postings (index s2) token
      = postings (index s1) token ++ postings (index s1) token.
Proof.
  intros T. do 2 eexists.
  split; [now apply build_index_run|].
  split; [intros s1' E; rewrite build_index_run in E by assumption; congruence|].
  split; [now apply build_index_run|].
  simpl. split.
  - apply keys_index_after_present. intros t I.
    rewrite mem_index_after. apply orb_true_iff. right.
    apply existsb_select. now apply select_nonempty.
  - intros token. rewrite (postings_index_after token docs 0 (index_after _ _ _)).
    f_equal. now rewrite postings_index_after.
Qed.

Lemma total_postings_append i token idx :
  total_postings (append_posting i token idx) = S (total_postings i).
Proof.
  unfold append_posting, postings, total_postings.
  induction i as [|[k v] i IH]; simpl; [reflexivity|].
  destruct (eq_dec k token) as [E|E]; simpl.
  - rewrite length_app. simpl. lia.
  - rewrite IH. lia.
Qed.

Lemma total_postings_add_tokens idx toks : forall i,
  total_postings (add_tokens i idx toks) = total_postings i + length toks.
Proof.
  induction toks as [|token toks IH]; intros i; simpl; [lia|].
  fold (add_tokens (append_posting i token idx) idx toks).
  rewrite IH, total_postings_append. lia.
Qed.

Lemma total_postings_index_after docs : forall n i,
  total_postings (index_after n docs i) = total_postings i + corpus_size docs.
Proof.
  induction docs as [|d docs IH]; intros n i; simpl.
  - unfold corpus_size. simpl. lia.
  - rewrite IH, total_postings_add_tokens. unfold corpus_size. simpl. lia.
Qed.

End NonPositional.

(** ** Statistics *)

Section StatisticsFacts.
Context `{Unicode}.

Lemma stats_loop_ok docs : forall total tpf,
  Forall has_title docs ->
  stats_loop docs total tpf
  = inr (total + corpus_size docs, fields_after docs tpf).
Proof.
  induction docs as [|d docs IH]; intros total tpf T; simpl.
  - unfold corpus_size. simpl. now rewrite Nat.add_0_r.
  - inversion T as [|? ? Td Tr]; subst. unfold has_title in Td.
    unfold corpus_size, doc_tokens. simpl.
    destruct (Dict.get d (py "title")) as [title|]; [|congruence].
    rewrite IH by assumption. unfold corpus_size, doc_tokens.
    now rewrite Nat.add_assoc.
Qed.

Lemma get_int_set tpf f n k :
  get_int (Dict.set tpf f n) k = if eqb f k then n else get_int tpf k.
Proof.
  unfold get_int, eqb. destruct (eq_dec f k) as [E|E].
  - subst. now rewrite DictFacts.get_set_same.
  - now rewrite DictFacts.get_set_other.
Qed.

Lemma get_int_count_fields k d : forall tpf,
  k <> py "url" ->
  get_int (count_fields d tpf) k = get_int tpf k + field_tokens k d.
Proof.
  intros tpf U. revert tpf. unfold count_fields, field_tokens.
  induction d as [|[f v] d IH]; intros tpf; simpl; [lia|].
  destruct (eqb f (py "url")) eqn:Fu.
  - apply eqb_true_iff in Fu. subst f.
    assert (eqb (py "url") k = false) as -> by (apply eqb_false_iff; congruence).
    rewrite IH. lia.
  - rewrite IH, get_int_set. destruct (eqb f k) eqn:Fk.
    + apply eqb_true_iff in Fk. subst f. lia.
    + lia.
Qed.

Lemma field_tokens_absent k (d : document) :
  ~ In k (Dict.keys d) -> field_tokens k d = 0.
Proof.
  unfold field_tokens. induction d as [|[f v] d IH]; simpl; [reflexivity|].
  intros N. destruct (eqb f k) eqn:Fk.
  - apply eqb_true_iff in Fk. exfalso. apply N. now left.
  - apply IH. intros I. apply N. now right.
Qed.

Lemma field_tokens_wf k (d : document) :
  Dict.wf d ->
  field_tokens k d
  = match Dict.get d k with
    | Some v => length (tokenize v)
    | None => 0
    end.
Proof.
  unfold Dict.wf. induction d as [|[f v] d IH]; intros W; [reflexivity|].
  inversion W as [|? ? N W']; subst.
  change (field_tokens k ((f, v) :: d))
    with ((if eqb f k then length (tokenize v) else 0) + field_tokens k d).
  simpl. unfold eqb. destruct (eq_dec f k) as [E|E].
  - subst. rewrite field_tokens_absent by exact N. lia.
  - now rewrite IH.
Qed.

Lemma title_not_url : py "title" <> py "url".
Proof. discriminate. Qed.

Lemma get_int_fields_after docs : forall tpf,
  Forall Dict.wf docs ->
  get_int (fields_after docs tpf) (py "title")
  = get_int tpf (py "title") + corpus_size docs.
Proof.
  induction docs as [|d docs IH]; intros tpf W.
  - unfold corpus_size. simpl. lia.
  - inversion W as [|? ? Wd Wr]; subst.
    change (fields_after (d :: docs) tpf)
      with (fields_after docs (count_fields d tpf)).
    rewrite IH by assumption.
    rewrite get_int_count_fields by exact title_not_url.
    rewrite field_tokens_wf by assumption.
    unfold corpus_size. simpl. unfold doc_tokens.
    destruct (Dict.get d (py "title")); simpl; lia.
Qed.

Lemma compute_statistics_ok docs :
  docs <> [] ->
  Forall has_title docs ->
  exists avg,
    truediv (corpus_size docs) (length docs) = inr avg /\
    compute_statistics docs
    = inr {| num_documents := length docs;
             total_tokens := corpus_size docs;
             tokens_per_field := fields_after docs Dict.empty;
             avg_tokens_per_doc := avg |}.
Proof.
  intros N T. unfold compute_statistics.
  rewrite stats_loop_ok by assumption. simpl.
  unfold truediv. destruct docs as [|d docs]; [congruence|].
  simpl. eexists. split; reflexivity.
Qed.

Lemma compute_statistics_inv docs st :
  Forall has_title docs ->
  compute_statistics docs = inr st ->
  num_documents st = length docs /\
  total_tokens st = corpus_size docs /\
  tokens_per_field st = fields_after docs Dict.empty.
Proof.
  intros T. unfold compute_statistics.
  rewrite stats_loop_ok by assumption. simpl.
  destruct (truediv (corpus_size docs) (length docs)); [discriminate|].
  intros E. inversion E. simpl. auto.
Qed.

Lemma truediv_exact a b avg :
  truediv a b = inr avg ->
  (avg * inject_Z (Z.of_nat b) == inject_Z (Z.of_nat a))%Q.
Proof.
  unfold truediv. destruct (b =? 0) eqn:B; [discriminate|].
  intros E. inversion E. apply Nat.eqb_neq in B.
  rewrite Qmult_comm. apply Qmult_div_r.
  unfold Qeq. simpl. lia.
Qed.

End StatisticsFacts.

Section NonPositionalStatistics.
Import NonPositionalIndex.
Context `{Unicode}.

(** C3. For a non-empty list of documents that all have a title,
    [calculate_statistics] stores statistics in which [num_documents] is
    the number of documents, [total_tokens] is the sum of the token counts
    of the titles, and, the division being exact,
    [avg_tokens_per_doc * num_documents = total_tokens]. *)
Theorem average_times_documents (docs : list document) (s : self) :
  docs <> [] ->
  Forall has_title docs ->
  exists st,
    calculate_statistics docs s = (inr tt, set_statistics s st) /\
    num_documents st = length docs /\
    total_tokens st = corpus_size docs /\
    (avg_tokens_per_doc st * inject_Z (Z.of_nat (num_documents st))
     == inject_Z (Z.of_nat (total_tokens st)))%Q.
Proof.
  intros N T.
  destruct (compute_statistics_ok docs N T) as [avg [D E]].
  eexists. unfold calculate_statistics. rewrite E.
  split; [reflexivity|]. simpl.
  split; [reflexivity|]. split; [reflexivity|].
  now apply truediv_exact.
Qed.

(** C4, as the code has it.  On an empty list of documents the loop does
    nothing and [total_tokens / num_documents] is evaluated as [0 / 0]:
    [calculate_statistics] raises the [ZeroDivisionError] of that division,
    there is no guard before it; [self.statistics] and the index keep their
    values. *)
Theorem calculate_statistics_empty (s : self) :
  calculate_statistics [] s = (inl ZeroDivisionError, s) /\
  stats_loop [] 0 Dict.empty = inr (0, Dict.empty) /\
  truediv 0 (length (@nil document)) = inl ZeroDivisionError.
Proof.
  split; [|split]; reflexivity.
Qed.

(** C9. After [build_index] on a fresh builder, for documents that all
    have a title: whenever [calculate_statistics] on the same documents
    stores statistics, the number of postings entries of the index is
    [total_tokens], which is also [tokens_per_field['title']]; and it does
    store statistics when the list is not empty. *)
Theorem postings_total_is_total_tokens (docs : list document) :
  Forall has_title docs ->
  Forall Dict.wf docs ->
  exists s,
    build_index docs init = (inr tt, s) /\
    (forall s',
       calculate_statistics docs s = (inr tt, s') ->
       exists st,
         statistics s' = Some st /\
         total_postings (index s) = total_tokens st /\
         get_int (tokens_per_field st) (py "title") = total_tokens st) /\
    (docs <> [] -> exists s', calculate_statistics docs s = (inr tt, s')).
Proof.
  intros T W. eexists. split; [now apply build_index_run|]. split.
  - intros s'. unfold calculate_statistics.
    destruct (compute_statistics docs) as [e|st] eqn:E; [discriminate|].
    intros R. inversion R. subst s'. exists st. simpl.
    destruct (compute_statistics_inv docs st T E) as [_ [Et Ef]].
    rewrite Et, Ef. split; [reflexivity|]. split.
    + now rewrite total_postings_index_after.
    + now rewrite get_int_fields_after.
  - intros N. destruct (compute_statistics_ok docs N T) as [avg [_ E]].
    eexists. unfold calculate_statistics. rewrite E. reflexivity.
Qed.

End NonPositionalStatistics.

(** C10. [calculate_statistics] leaves the index as it was, whatever the
    documents and whether it returns or raises, in both builders. *)
Theorem calculate_statistics_keeps_index `{Unicode} (docs : list document) :
  (forall s : NonPositionalIndex.self,
     NonPositionalIndex.index
       (snd (NonPositionalIndex.calculate_statistics docs s))
     = NonPositionalIndex.index s) /\
  (forall s : PositionalIndex.self,
     PositionalIndex.index
       (snd (PositionalIndex.calculate_statistics docs s))
     = PositionalIndex.index s).
Proof.
  split; intros s.
  - unfold NonPositionalIndex.calculate_statistics.
    destruct (compute_statistics docs); reflexivity.
  - unfold PositionalIndex.calculate_statistics.
    destruct (compute_statistics docs); reflexivity.
Qed.

(** ** The stemmed index *)

Section Stemming.
Import NonPositionalIndex.
Variable stem : pystr -> pystr.

Lemma stem_entries_app l1 l2 acc :
  stem_entries stem (l1 ++ l2) acc = stem_entries stem l2 (stem_entries stem l1 acc).
Proof. unfold stem_entries. apply fold_left_app. Qed.

Lemma stem_entries_other k entries : forall acc,
  (forall t p, In (t, p) entries -> stem t <> k) ->
  Dict.get (stem_entries stem entries acc) k = Dict.get acc k.
Proof.
  induction entries as [|[t p] entries IH]; intros acc N; [reflexivity|].
  change (stem_entries stem ((t, p) :: entries) acc)
    with (stem_entries stem entries (Dict.set acc (stem t) p)).
  rewrite IH.
  - apply DictFacts.get_set_other. apply (N t p). now left.
  - intros t' p' I. apply (N t' p'). now right.
Qed.

Lemma stem_entries_mem k entries : forall acc,
  Dict.mem (stem_entries stem entries acc) k
  = Dict.mem acc k || existsb (fun e => eqb (stem (fst e)) k) entries.
Proof.
  induction entries as [|[t p] entries IH]; intros acc.
  - simpl. now rewrite orb_false_r.
  - change (stem_entries stem ((t, p) :: entries) acc)
      with (stem_entries stem entries (Dict.set acc (stem t) p)).
    rewrite IH. simpl. rewrite orb_assoc. f_equal.
    unfold Dict.mem, eqb. destruct (eq_dec (stem t) k) as [E|E].
    + subst. rewrite DictFacts.get_set_same. now rewrite orb_true_r.
    + rewrite DictFacts.get_set_other by assumption. now rewrite orb_false_r.
Qed.

(** C6. [stem_index] walks the entries of the index in order and assigns
    the postings of each token to the stem of the token.  The value kept
    for a stem is therefore the postings list of the last token with that
    stem, as it is: when [t1] comes before [t2] and both have the same
    stem, the list of [t2] replaces the list of [t1].  The keys of the
    result are the stems of the tokens of the index. *)
Theorem stem_index_last_wins (s : self) :
  (forall l1 t p l2,
     index s = l1 ++ (t, p) :: l2 ->
     (forall t' p', In (t', p') l2 -> stem t' <> stem t) ->
     Dict.get (stem_index stem s) (stem t) = Some p) /\
  (forall l1 t1 p1 l2 t2 p2 l3,
     index s = l1 ++ (t1, p1) :: l2 ++ (t2, p2) :: l3 ->
     stem t1 = stem t2 ->
     (forall t' p', In (t', p') l3 -> stem t' <> stem t2) ->
     Dict.get (stem_index stem s) (stem t1) = Some p2) /\
  (forall k,
     Dict.mem (stem_index stem s) k = true
     <-> In k (map stem (Dict.keys (index s)))).
Proof.
  assert (forall l1 t p l2,
            index s = l1 ++ (t, p) :: l2 ->
            (forall t' p', In (t', p') l2 -> stem t' <> stem t) ->
            Dict.get (stem_index stem s) (stem t) = Some p) as last.
  { intros l1 t p l2 E N. unfold stem_index. fold (stem_entries stem (index s) Dict.empty).
    rewrite E, stem_entries_app.
    change (stem_entries stem ((t, p) :: l2) (stem_entries stem l1 Dict.empty))
      with (stem_entries stem l2 (Dict.set (stem_entries stem l1 Dict.empty) (stem t) p)).
    rewrite stem_entries_other by exact N. apply DictFacts.get_set_same. }
  split; [exact last|]. split.
  - intros l1 t1 p1 l2 t2 p2 l3 E S N. rewrite S.
    apply (last (l1 ++ (t1, p1) :: l2) t2 p2 l3); [|exact N].
    rewrite E, <- app_assoc. reflexivity.
  - intros k. unfold stem_index. fold (stem_entries stem (index s) Dict.empty).
    rewrite stem_entries_mem. simpl. unfold Dict.keys. rewrite map_map.
    rewrite existsb_exists, in_map_iff. split.
    + intros [e [I E]]. exists e. apply eqb_true_iff in E. auto.
    + intros [e [E I]]. exists e. split; [exact I|]. now apply eqb_true_iff.
Qed.

End Stemming.

(** ** The positional builder *)

Section PositionsOfToken.

(** [select token (enumerate_from p toks)]: the positions of [token] in
    [toks], counted from [p]. *)
Lemma In_select_enumerate (token : pystr) toks : forall p q,
  In q (select token (enumerate_from p toks))
  <-> p <= q /\ nth_error toks (q - p) = Some token.
Proof.
  induction toks as [|t toks IH]; intros p q.
  - simpl. split; [tauto|]. intros [_ E]. now destruct (q - p).
  - unfold select in *. simpl. unfold eqb at 1. simpl.
    destruct (eq_dec t token) as [E|E]; simpl; rewrite IH.
    + split.
      * intros [Q|[L N]].
        -- subst. rewrite Nat.sub_diag. simpl. split; [lia | reflexivity].
        -- split; [lia|]. replace (q - p) with (S (q - S p)) by lia. exact N.
      * intros [L N]. destruct (Nat.eq_dec p q) as [Q|Q]; [now left|].
        right. split; [lia|].
        replace (q - p) with (S (q - S p)) in N by lia. exact N.
    + split.
      * intros [L N]. split; [lia|].
        replace (q - p) with (S (q - S p)) by lia. exact N.
      * intros [L N]. destruct (Nat.eq_dec p q) as [Q|Q].
        -- subst. rewrite Nat.sub_diag in N. simpl in N. congruence.
        -- split; [lia|].
           replace (q - p) with (S (q - S p)) in N by lia. exact N.
Qed.

Lemma select_enumerate_sorted (token : pystr) toks : forall p,
  StronglySorted lt (select token (enumerate_from p toks)).
Proof.
  induction toks as [|t toks IH]; intros p; [constructor|].
  unfold select in *. simpl. unfold eqb at 1. simpl.
  destruct (eq_dec t token) as [E|E]; simpl; [|apply IH].
  constructor; [apply IH|].
  apply Forall_forall. intros q I.
  apply (In_select_enumerate token toks (S p) q) in I. lia.
Qed.

End PositionsOfToken.

Section Positional.
Import PositionalIndex.
Context `{Unicode}.

Lemma inner_set i token m t :
  inner (Dict.set i token m) t = if eqb token t then m else inner i t.
Proof.
  unfold inner, eqb. destruct (eq_dec token t) as [E|E].
  - subst. now rewrite DictFacts.get_set_same.
  - now rewrite DictFacts.get_set_other.
Qed.

Lemma inner_ensure_token i token t :
  inner (ensure_token i token) t = inner i t.
Proof.
  unfold ensure_token. destruct (Dict.mem i token) eqn:P; [reflexivity|].
  rewrite inner_set. unfold eqb. destruct (eq_dec token t) as [E|E]; [|reflexivity].
  subst. unfold inner. unfold Dict.mem in P.
  now destruct (Dict.get i t).
Qed.

Lemma get_inner_ensure_doc i token idx t j :
  Dict.get (inner (ensure_doc i token idx) t) j
  = if eqb token t && (idx =? j)
    then Some (positions i token idx)
    else Dict.get (inner i t) j.
Proof.
  unfold ensure_doc, positions.
  destruct (Dict.mem (inner i token) idx) eqn:P.
  - unfold eqb. destruct (eq_dec token t) as [E|E]; simpl; [|reflexivity].
    destruct (Nat.eqb_spec idx j) as [J|J]; [|reflexivity].
    subst. unfold Dict.mem in P. now destruct (Dict.get (inner i t) j).
  - rewrite inner_set. unfold eqb. destruct (eq_dec token t) as [E|E]; simpl;
      [|reflexivity].
    subst. destruct (Nat.eqb_spec idx j) as [J|J].
    + subst. rewrite DictFacts.get_set_same. unfold Dict.mem in P.
      now destruct (Dict.get (inner i t) j).
    + now rewrite DictFacts.get_set_other.
Qed.

Lemma get_inner_append i token idx position t j :
  Dict.get (inner (append_position i token idx position) t) j
  = if eqb token t && (idx =? j)
    then Some (positions i token idx ++ [position])
    else Dict.get (inner i t) j.
Proof.
  unfold append_position. rewrite inner_set.
  unfold eqb. destruct (eq_dec token t) as [E|E]; simpl; [|reflexivity].
  subst. destruct (Nat.eqb_spec idx j) as [J|J].
  - subst. now rewrite DictFacts.get_set_same.
  - now rewrite DictFacts.get_set_other.
Qed.

Lemma positions_ensure i token idx :
  positions (ensure_doc (ensure_token i token) token idx) token idx
  = positions i token idx.
Proof.
  unfold positions at 1. rewrite get_inner_ensure_doc.
  rewrite eqb_refl, Nat.eqb_refl. simpl.
  unfold positions. now rewrite inner_ensure_token.
Qed.

(** One pass of the inner loop body, read through [Dict.get]. *)
Lemma get_inner_record i token idx position t j :
  Dict.get (inner (record_position i token idx position) t) j
  = if eqb token t && (idx =? j)
    then Some (positions i token idx ++ [position])
    else Dict.get (inner i t) j.
Proof.
  unfold record_position. rewrite get_inner_append, positions_ensure.
  destruct (eqb token t && (idx =? j)) eqn:C; [reflexivity|].
  rewrite get_inner_ensure_doc, C. now rewrite inner_ensure_token.
Qed.

Lemma positions_record i token idx position t j :
  positions (record_position i token idx position) t j
  = positions i t j ++ (if eqb token t && (idx =? j) then [position] else []).
Proof.
  unfold positions at 1. rewrite get_inner_record.
  destruct (eqb token t && (idx =? j)) eqn:C.
  - apply andb_true_iff in C. destruct C as [E J].
    apply eqb_true_iff in E. apply Nat.eqb_eq in J. now subst.
  - fold (positions i t j). now rewrite app_nil_r.
Qed.

Lemma present_record i token idx position t j :
  present (record_position i token idx position) t j
  = present i t j || (eqb token t && (idx =? j)).
Proof.
  unfold present, Dict.mem. rewrite get_inner_record.
  destruct (eqb token t && (idx =? j)).
  - now rewrite orb_true_r.
  - now rewrite orb_false_r.
Qed.

Lemma record_tokens_run idx occ : forall s,
  for_each
    (fun '(position, token) =>
       modify (fun s =>
         set_index s (record_position (index s) token idx position)))
    occ s
  = (inr tt, set_index s (add_positions (index s) idx occ)).
Proof.
  induction occ as [|[p t] occ IH]; intros s; simpl.
  - now destruct s.
  - unfold bind, modify at 1. rewrite IH. reflexivity.
Qed.

Lemma record_docs_run docs : forall n s,
  Forall has_title docs ->
  for_each
    (fun '(idx, doc) =>
       title <- getitem doc (py "title") ;;
       for_each
         (fun '(position, token) =>
            modify (fun s =>
              set_index s (record_position (index s) token idx position)))
         (enumerate (tokenize title)))
    (enumerate_from n docs) s
  = (inr tt, set_index s (pindex_after n docs (index s))).
Proof.
  induction docs as [|d docs IH]; intros n s T; simpl.
  - now destruct s.
  - inversion T as [|? ? Td Tr]; subst.
    unfold has_title in Td. unfold bind at 1. unfold bind at 1.
    unfold getitem, doc_tokens.
    destruct (Dict.get d (py "title")) as [title|]; [|congruence].
    unfold ret at 1. rewrite record_tokens_run.
    rewrite IH by assumption. reflexivity.
Qed.

Lemma positions_add_positions idx t j occ : forall i,
  positions (add_positions i idx occ) t j
  = positions i t j ++ (if idx =? j then select t occ else []).
Proof.
  induction occ as [|[p token] occ IH]; intros i.
  - simpl. destruct (idx =? j); now rewrite app_nil_r.
  - change (add_positions i idx ((p, token) :: occ))
      with (add_positions (record_position i token idx p) idx occ).
    rewrite IH, positions_record, <- app_assoc. f_equal.
    unfold select. simpl.
    destruct (eqb token t); destruct (idx =? j); reflexivity.
Qed.

Lemma positions_pindex_after t j docs : forall n i,
  positions (pindex_after n docs i) t j
  = positions i t j ++ doc_positions n docs t j.
Proof.
  unfold doc_positions.
  induction docs as [|d docs IH]; intros n i; simpl.
  - destruct (j <? n); [|destruct (j - n)]; now rewrite app_nil_r.
  - rewrite IH, positions_add_positions, <- app_assoc. f_equal.
    destruct (Nat.eqb_spec n j) as [E|E].
    + subst. rewrite Nat.ltb_irrefl, Nat.sub_diag. simpl.
      assert ((j <? S j) = true) as -> by (apply Nat.ltb_lt; lia).
      now rewrite app_nil_r.
    + simpl. destruct (j <? n) eqn:L.
      * apply Nat.ltb_lt in L.
        assert ((j <? S n) = true) as -> by (apply Nat.ltb_lt; lia).
        reflexivity.
      * apply Nat.ltb_ge in L.
        assert ((j <? S n) = false) as -> by (apply Nat.ltb_ge; lia).
        replace (j - n) with (S (j - S n)) by lia. reflexivity.
Qed.

Lemma lists_nonempty_record i token idx position :
  lists_nonempty i -> lists_nonempty (record_position i token idx position).
Proof.
  intros I t j. rewrite present_record, positions_record.
  destruct (eqb token t && (idx =? j)).
  - intros _ E. now apply app_eq_nil in E.
  - rewrite orb_false_r, app_nil_r. apply I.
Qed.

Lemma lists_nonempty_add idx occ : forall i,
  lists_nonempty i -> lists_nonempty (add_positions i idx occ).
Proof.
  induction occ as [|[p token] occ IH]; intros i I; [exact I|].
  change (add_positions i idx ((p, token) :: occ))
    with (add_positions (record_position i token idx p) idx occ).
  apply IH. now apply lists_nonempty_record.
Qed.

Lemma lists_nonempty_after docs : forall n i,
  lists_nonempty i -> lists_nonempty (pindex_after n docs i).
Proof.
  induction docs as [|d docs IH]; intros n i I; [exact I|].
  simpl. apply IH. now apply lists_nonempty_add.
Qed.

(** C2. Built on a fresh [PositionalIndex] from documents that all have a
    title: every position list stored under a token and a document
    identifier belongs to a document of the list, is not empty, is strictly
    increasing, and holds exactly the zero-based positions of the token in
    the token sequence of that document's own title. *)
Theorem build_index_positions (docs : list document) :
  Forall has_title docs ->
  exists s,
    build_index docs init = (inr tt, s) /\
    forall token idx m ps,
      Dict.get (index s) token = Some m ->
      Dict.get m idx = Some ps ->
      exists d,
        nth_error docs idx = Some d /\
        ps <> [] /\
        StronglySorted lt ps /\
        (forall q, In q ps <-> nth_error (doc_tokens d) q = Some token).
Proof.
  intros T. eexists. split.
  { unfold build_index, enumerate. now apply record_docs_run. }
  simpl. intros token idx m ps Gm Gp.
  remember (pindex_after 0 docs Dict.empty) as i eqn:Ei.
  assert (inner i token = m) as Im by (unfold inner; now rewrite Gm).
  assert (positions i token idx = ps) as P.
  { unfold positions. now rewrite Im, Gp. }
  assert (ps <> []) as NE.
  { pose proof (lists_nonempty_after docs 0 Dict.empty) as LN.
    rewrite <- Ei in LN. rewrite <- P. apply LN.
    - intros t j. discriminate.
    - unfold present, Dict.mem. now rewrite Im, Gp. }
  rewrite Ei, positions_pindex_after in P. simpl in P.
  unfold doc_positions in P. simpl in P. rewrite Nat.sub_0_r in P.
  destruct (nth_error docs idx) as [d|]; [|congruence].
  exists d. split; [reflexivity|]. split; [exact NE|]. subst ps. split.
  - apply select_enumerate_sorted.
  - intros q. unfold enumerate. rewrite In_select_enumerate.
    rewrite Nat.sub_0_r. split; [tauto|]. intros E. split; [lia | exact E].
Qed.

End Positional.

(** ** The crawling tokenizer *)

Section Crawling.
Import AbstractIndex.
Context `{Unicode}.

Lemma drop_while_all p text : forallb p text = true -> drop_while p text = [].
Proof.
  induction text as [|c text IH]; simpl; [reflexivity|].
  destruct (p c); simpl; [exact IH | discriminate].
Qed.

(** A non-empty text made of class characters only is matched as a whole
    by the anchored pattern, and deleted. *)
Lemma sub_anchored_class_only text :
  text <> [] -> forallb keep_char text = true -> sub_anchored text = [].
Proof.
  intros N A. unfold sub_anchored. rewrite drop_while_all by exact A.
  destruct text as [|c text]; [congruence|]. reflexivity.
Qed.

(** A text with a character outside the class that is not its final
    newline is left as it is: no single character is ever removed. *)
Lemma sub_anchored_otherwise text :
  drop_while keep_char text <> [] ->
  drop_while keep_char text <> [10%N] ->
  sub_anchored text = text.
Proof.
  intros N1 N2. unfold sub_anchored.
  apply eqb_false_iff in N1. apply eqb_false_iff in N2.
  rewrite N1, N2. simpl. now rewrite andb_false_r.
Qed.

Lemma tokenize_class_only text (s : self) :
  text <> [] -> forallb keep_char text = true ->
  tokenize text s = (inr [], s).
Proof.
  intros N A. unfold tokenize. rewrite sub_anchored_class_only by assumption.
  simpl. rewrite str_lower_nil. simpl.
  destruct (stopwords s) as [[|w ws]|]; destruct (stemmer s); reflexivity.
Qed.

(** C5, on the code.  The text [chat] consists of class characters only:
    the first substitution deletes it as a whole and [tokenize] returns no
    token at all, whatever the options, and records nothing. *)
Theorem tokenize_letters_only (s : self) :
  sub_anchored (py "chat") = [] /\
  tokenize (py "chat") s = (inr [], s).
Proof.
  split.
  - apply sub_anchored_class_only; [discriminate | reflexivity].
  - apply tokenize_class_only; [discriminate | reflexivity].
Qed.

Lemma flush_nonempty cur : Forall (fun t => t <> []) (flush cur).
Proof.
  destruct cur as [|c cur]; simpl; constructor; [|constructor].
  intros E. apply (f_equal (@length char)) in E.
  rewrite length_app, length_rev in E. simpl in E. lia.
Qed.

(** A run is never empty: [split] and [findall] give no empty token. *)
Lemma runs_nonempty p text : forall cur,
  Forall (fun t => t <> []) (runs p cur text).
Proof.
  induction text as [|c text IH]; intros cur; simpl.
  - apply flush_nonempty.
  - destruct (p c); [apply IH|].
    apply Forall_app. split; [apply flush_nonempty | apply IH].
Qed.

Lemma stemmer_record_tokens l : forall s : self,
  stemmer (fold_left record_token l s) = stemmer s.
Proof.
  induction l as [|t l IH]; intros s; [reflexivity|].
  simpl. rewrite IH. unfold record_token.
  now destruct (existsb (eqb t) (tokens s)).
Qed.

(** Without a stemmer, [tokenize] returns no empty token. *)
Lemma tokenize_no_empty_token text (s : self) :
  stemmer s = None ->
  forall toks s', tokenize text s = (inr toks, s') ->
  Forall (fun t => t <> []) toks.
Proof.
  intros St toks s' E. unfold tokenize in E.
  rewrite stemmer_record_tokens, St in E.
  inversion E as [[Et Es]]. clear E Es Et.
  match goal with |- context [filter _ ?x] => set (l := x) end.
  assert (Forall (fun t => t <> []) l) as F by apply runs_nonempty.
  destruct (stopwords _) as [[|w ws]|]; try exact F.
  apply Forall_forall. intros t I. apply filter_In in I.
  destruct I as [I _]. revert t I. now apply Forall_forall.
Qed.

End Crawling.

(** * Further properties of the code *)

(** ** The tokenizer of the builders *)

Section WordRuns.
Context `{Unicode}.

Lemma flush_concat cur : concat (flush cur) = rev cur.
Proof. destruct cur; simpl; [reflexivity | now rewrite app_nil_r]. Qed.

Lemma runs_concat p s : forall cur,
  concat (runs p cur s) = rev cur ++ filter p s.
Proof.
  induction s as [|c s IH]; intros cur; simpl.
  - rewrite flush_concat. now rewrite app_nil_r.
  - destruct (p c).
    + rewrite IH. simpl. now rewrite <- app_assoc.
    + rewrite concat_app, flush_concat, IH. reflexivity.
Qed.

Lemma forallb_reversed (p : char -> bool) l :
  forallb p l = true -> forallb p (rev l) = true.
Proof.
  rewrite !forallb_forall. intros A x I. apply A. now apply in_rev.
Qed.

Lemma flush_all p cur :
  forallb p cur = true -> Forall (fun t => forallb p t = true) (flush cur).
Proof.
  intros A. destruct cur as [|c cur]; constructor; [|constructor].
  now apply forallb_reversed.
Qed.

Lemma runs_all p s : forall cur,
  forallb p cur = true -> Forall (fun t => forallb p t = true) (runs p cur s).
Proof.
  induction s as [|c s IH]; intros cur A; simpl.
  - now apply flush_all.
  - destruct (p c) eqn:P.
    + apply IH. simpl. now rewrite P, A.
    + apply Forall_app. split; [now apply flush_all | now apply IH].
Qed.

Lemma runs_separator p c s1 s2 : forall cur,
  p c = false ->
  runs p cur (s1 ++ c :: s2) = runs p cur s1 ++ runs p [] s2.
Proof.
  intros cur P. revert cur. induction s1 as [|c1 s1 IH]; intros cur; simpl.
  - now rewrite P.
  - destruct (p c1); [apply IH|]. rewrite IH. now rewrite app_assoc.
Qed.

Lemma runs_word p s : forall cur,
  forallb p s = true -> runs p cur s = flush (rev s ++ cur).
Proof.
  induction s as [|c s IH]; intros cur A; simpl; [reflexivity|].
  simpl in A. apply andb_true_iff in A. destruct A as [Pc A].
  rewrite Pc, IH by exact A. now rewrite <- app_assoc.
Qed.

(** X1. The tokenizer of the builders cuts the lowercased text at the
    characters that are not word characters: a separator splits the token
    lists of the two sides, a non-empty stretch of word characters is one
    token.  Hence every token is non-empty and made of word characters, and
    the tokens put end to end are the word characters of the lowercased
    text, in order. *)
Theorem tokenize_word_runs :
  (forall text, tokenize text = findall_word (str_lower text)) /\
  findall_word [] = [] /\
  (forall s1 c s2,
     is_word c = false ->
     findall_word (s1 ++ c :: s2) = findall_word s1 ++ findall_word s2) /\
  (forall c s,
     forallb is_word (c :: s) = true -> findall_word (c :: s) = [c :: s]) /\
  (forall text,
     Forall (fun t => t <> [] /\ forallb is_word t = true) (tokenize text)) /\
  (forall text,
     concat (tokenize text) = filter is_word (str_lower text)).
Proof.
  split; [reflexivity|]. split; [reflexivity|]. split; [|split; [|split]].
  - intros s1 c s2 P. unfold findall_word. now apply runs_separator.
  - intros c s A. unfold findall_word. rewrite runs_word by exact A.
    rewrite app_nil_r. destruct (rev (c :: s)) as [|x r] eqn:R.
    + apply (f_equal (@length char)) in R. rewrite length_rev in R.
      simpl in R. discriminate.
    + unfold flush. rewrite <- R. now rewrite rev_involutive.
  - intros text. unfold tokenize, findall_word.
    pose proof (runs_nonempty is_word (str_lower text) []) as N.
    pose proof (runs_all is_word (str_lower text) [] eq_refl) as A.
    rewrite Forall_forall in *. intros t I. split; [now apply N | now apply A].
  - intros text. unfold tokenize, findall_word. now rewrite runs_concat.
Qed.

End WordRuns.

(** ** More on the non-positional builder *)

Section NonPositionalMore.
Import NonPositionalIndex.
Context `{Unicode}.

Lemma add_tokens_append_all idx toks : forall i,
  add_tokens i idx toks = append_all (map (pair idx) toks) i.
Proof.
  induction toks as [|t toks IH]; intros i; [reflexivity|].
  rewrite add_tokens_cons, IH. reflexivity.
Qed.

(** The walk over the documents is one pass over the scan. *)
Lemma index_after_append_all docs : forall n i,
  index_after n docs i = append_all (scan_from n docs) i.
Proof.
  induction docs as [|d docs IH]; intros n i; [reflexivity|].
  simpl. rewrite IH, add_tokens_append_all, scan_from_cons.
  unfold append_all. now rewrite fold_left_app.
Qed.

Lemma filter_filter {A} (f g : A -> bool) l :
  filter f (filter g l) = filter (fun x => g x && f x) l.
Proof.
  induction l as [|x l IH]; simpl; [reflexivity|].
  destruct (g x); simpl; [destruct (f x)|]; now rewrite IH.
Qed.

Lemma filter_all {A} (f : A -> bool) l :
  (forall x, f x = true) -> filter f l = l.
Proof.
  intros T. induction l as [|x l IH]; simpl; [reflexivity|].
  now rewrite T, IH.
Qed.

Lemma keys_append_all occ : forall i,
  Dict.keys (append_all occ i)
  = Dict.keys i
    ++ filter (fun t => negb (Dict.mem i t)) (first_seen (map snd occ)).
Proof.
  induction occ as [|[idx token] occ IH]; intros i.
  - simpl. now rewrite app_nil_r.
  - change (append_all ((idx, token) :: occ) i)
      with (append_all occ (append_posting i token idx)).
    rewrite IH. simpl.
    assert (filter (fun t => negb (Dict.mem (append_posting i token idx) t))
              (first_seen (map snd occ))
            = filter (fun t => negb (Dict.mem i t))
                (filter (fun y => negb (eqb y token))
                   (first_seen (map snd occ)))) as F.
    { rewrite filter_filter. apply filter_ext. intros t.
      rewrite mem_append. unfold eqb.
      destruct (eq_dec token t); destruct (eq_dec t token);
        try congruence; simpl; now destruct (Dict.mem i t). }
    rewrite F. unfold append_posting. rewrite DictFacts.keys_set.
    destruct (Dict.mem i token); simpl; [reflexivity|].
    now rewrite <- app_assoc.
Qed.

Lemma first_seen_In l t : In t (first_seen l) <-> In t l.
Proof.
  induction l as [|x l IH]; simpl; [tauto|].
  rewrite filter_In, IH. unfold eqb.
  destruct (eq_dec t x) as [E|E]; simpl; [|intuition congruence].
  subst. intuition.
Qed.

Lemma first_seen_NoDup l : NoDup (first_seen l).
Proof.
  induction l as [|x l IH]; simpl; constructor.
  - rewrite filter_In. intros [_ E]. now rewrite eqb_refl in E.
  - now apply NoDup_filter.
Qed.

(** X2. On a fresh builder the keys of the index are the distinct tokens of
    the corpus in the order in which the scan first meets them (the order
    of the keys in the dumped file), each key once. *)
Theorem build_index_keys_first_seen (docs : list document) :
  Forall has_title docs ->
  exists s,
    build_index docs init = (inr tt, s) /\
    Dict.keys (index s) = first_seen (map snd (scan docs)) /\
    NoDup (Dict.keys (index s)) /\
    (forall token, In token (Dict.keys (index s))
                   <-> In token (map snd (scan docs))).
Proof.
  intros T. eexists. split; [now apply build_index_run|]. simpl.
  assert (Dict.keys (index_after 0 docs Dict.empty)
          = first_seen (map snd (scan docs))) as K.
  { rewrite index_after_append_all, keys_append_all. simpl.
    now apply filter_all. }
  rewrite K. split; [reflexivity|]. split; [apply first_seen_NoDup|].
  intros token. apply first_seen_In.
Qed.

Lemma sorted_repeat_app n k l :
  StronglySorted le l -> Forall (le n) l ->
  StronglySorted le (repeat n k ++ l).
Proof.
  intros S F. induction k as [|k IH]; simpl; [exact S|].
  constructor; [exact IH|]. apply Forall_app. split; [|exact F].
  apply Forall_forall. intros x I. apply repeat_spec in I. lia.
Qed.

Lemma select_scan_sorted token docs : forall n,
  StronglySorted le (select token (scan_from n docs)) /\
  Forall (fun i => n <= i < n + length docs) (select token (scan_from n docs)).
Proof.
  induction docs as [|d docs IH]; intros n.
  - split; constructor.
  - rewrite scan_from_cons, select_app, select_doc.
    destruct (IH (S n)) as [S F]. split.
    + apply sorted_repeat_app; [exact S|].
      eapply Forall_impl; [|exact F]. simpl. intros; lia.
    + apply Forall_app. split.
      * apply Forall_forall. intros x I. apply repeat_spec in I.
        simpl. lia.
      * eapply Forall_impl; [|exact F]. simpl. intros; lia.
Qed.

(** X3. On a fresh builder every postings list is in ascending order of
    document identifier, and every identifier in it is the index of a
    document of the list. *)
Theorem build_index_postings_sorted (docs : list document) :
  Forall has_title docs ->
  exists s,
    build_index docs init = (inr tt, s) /\
    forall token,
      StronglySorted le (postings (index s) token) /\
      Forall (fun idx => idx < length docs) (postings (index s) token).
Proof.
  intros T. eexists. split; [now apply build_index_run|].
  intros token. simpl. rewrite postings_index_after. simpl.
  destruct (select_scan_sorted token docs 0) as [S F]. split; [exact S|].
  eapply Forall_impl; [|exact F]. simpl. intros; lia.
Qed.

(** The builder stops at the first document without a title; the
    documents before it have been indexed. *)
Lemma build_docs_partial pre d post : forall n s,
  Forall has_title pre ->
  lacks_title d ->
  for_each
    (fun '(idx, doc) =>
       title <- getitem doc (py "title") ;;
       for_each
         (fun token =>
            modify (fun s => set_index s (append_posting (index s) token idx)))
         (tokenize title))
    (enumerate_from n (pre ++ d :: post)) s
  = (inl (KeyError (py "title")),
     set_index s (index_after n pre (index s))).
Proof.
  induction pre as [|d0 pre IH]; intros n s T L; simpl.
  - unfold bind at 1. unfold bind at 1. unfold getitem.
    unfold lacks_title in L. rewrite L. unfold raise. now destruct s.
  - inversion T as [|? ? Td Tr]; subst. unfold has_title in Td.
    unfold bind at 1. unfold bind at 1. unfold getitem, doc_tokens.
    destruct (Dict.get d0 (py "title")) as [title|]; [|congruence].
    unfold ret at 1. rewrite build_tokens_run.
    rewrite IH by assumption. reflexivity.
Qed.

(** X4. When a document has no title, [build_index] raises [KeyError] at
    that document and nothing is rolled back: the builder keeps the
    postings of all the documents before it, and none of it or of the
    documents after it. *)
Theorem build_index_partial (pre post : list document) (d : document)
    (s : self) :
  Forall has_title pre ->
  lacks_title d ->
  exists s',
    build_index (pre ++ d :: post) s = (inl (KeyError (py "title")), s') /\
    statistics s' = statistics s /\
    forall token,
      postings (index s') token
      = postings (index s) token ++ occurrences token pre.
Proof.
  intros T L. eexists. split.
  { unfold build_index, enumerate. now apply build_docs_partial. }
  split; [reflexivity|]. intros token. simpl.
  now rewrite postings_index_after.
Qed.

Lemma select_map_shift token (k : nat) occ :
  select token (map (fun o => (k + fst o, snd o)) occ)
  = map (Nat.add k) (select token occ).
Proof.
  unfold select. induction occ as [|[i t] occ IH]; simpl; [reflexivity|].
  destruct (eqb t token); simpl; now rewrite IH.
Qed.

Lemma scan_from_shift docs : forall n k,
  scan_from (k + n) docs = map (fun o => (k + fst o, snd o)) (scan_from n docs).
Proof.
  induction docs as [|d docs IH]; intros n k; [reflexivity|].
  rewrite !scan_from_cons, map_app, map_map. simpl.
  now rewrite <- IH, Nat.add_succ_r.
Qed.

Lemma scan_from_app docs1 docs2 n :
  scan_from n (docs1 ++ docs2)
  = scan_from n docs1 ++ scan_from (n + length docs1) docs2.
Proof.
  unfold scan_from. now rewrite enumerate_from_app, flat_map_app.
Qed.

(** X5. Two calls on one builder, first with [docs1] then with [docs2],
    number the documents of each call from 0: the postings of a token are
    those of [docs1] followed by those of [docs2].  One call on the
    concatenated list numbers the second part after the first: the builder
    cannot be fed in several batches. *)
Theorem build_index_batches (docs1 docs2 : list document) :
  Forall has_title docs1 ->
  Forall has_title docs2 ->
  exists s1 s2 s,
    build_index docs1 init = (inr tt, s1) /\
    build_index docs2 s1 = (inr tt, s2) /\
    build_index (docs1 ++ docs2) init = (inr tt, s) /\
    forall token,
      postings (index s2) token
      = occurrences token docs1 ++ occurrences token docs2 /\
      postings (index s) token
      = occurrences token docs1
        ++ map (Nat.add (length docs1)) (occurrences token docs2).
Proof.
  intros T1 T2. do 3 eexists.
  split; [now apply build_index_run|].
  split; [now apply build_index_run|].
  split; [apply build_index_run; apply Forall_app; now split|].
  intros token. simpl. rewrite !postings_index_after. simpl. split.
  - reflexivity.
  - rewrite scan_from_app, select_app. simpl. f_equal.
    replace (length docs1) with (length docs1 + 0) at 1 by lia.
    rewrite scan_from_shift. apply select_map_shift.
Qed.

End NonPositionalMore.

(** ** More on the positional builder *)

Section PositionalMore.
Import PositionalIndex.
Context `{Unicode}.

Lemma mem_of_keys {V1 V2} (d1 : Dict.t pystr V1) (d2 : Dict.t pystr V2) k :
  Dict.keys d1 = Dict.keys d2 -> Dict.mem d1 k = Dict.mem d2 k.
Proof.
  intros E. destruct (Dict.mem d1 k) eqn:M1; destruct (Dict.mem d2 k) eqn:M2;
    try reflexivity.
  - apply DictFacts.mem_true_keys in M1. rewrite E in M1.
    apply DictFacts.mem_true_keys in M1. congruence.
  - apply DictFacts.mem_true_keys in M2. rewrite <- E in M2.
    apply DictFacts.mem_true_keys in M2. congruence.
Qed.

Lemma mem_set_same {V} (d : Dict.t pystr V) k v :
  Dict.mem (Dict.set d k v) k = true.
Proof. unfold Dict.mem. now rewrite DictFacts.get_set_same. Qed.

Lemma keys_set_present {V} (d : Dict.t pystr V) k v :
  Dict.mem d k = true -> Dict.keys (Dict.set d k v) = Dict.keys d.
Proof. intros M. rewrite DictFacts.keys_set. now rewrite M. Qed.

Lemma keys_record_position (i : index_t) token idx position :
  Dict.keys (record_position i token idx position)
  = if Dict.mem i token then Dict.keys i else Dict.keys i ++ [token].
Proof.
  unfold record_position, append_position.
  assert (Dict.mem (ensure_token i token) token = true) as M1.
  { unfold ensure_token. destruct (Dict.mem i token) eqn:M; [exact M|].
    apply mem_set_same. }
  assert (Dict.keys (ensure_token i token)
          = if Dict.mem i token then Dict.keys i else Dict.keys i ++ [token])
    as K1.
  { unfold ensure_token. destruct (Dict.mem i token) eqn:M; [reflexivity|].
    rewrite DictFacts.keys_set. now rewrite M. }
  set (i1 := ensure_token i token) in *.
  assert (Dict.mem (ensure_doc i1 token idx) token = true) as M2.
  { unfold ensure_doc. destruct (Dict.mem (inner i1 token) idx); [exact M1|].
    apply mem_set_same. }
  assert (Dict.keys (ensure_doc i1 token idx) = Dict.keys i1) as K2.
  { unfold ensure_doc. destruct (Dict.mem (inner i1 token) idx); [reflexivity|].
    now apply keys_set_present. }
  rewrite keys_set_present by exact M2. now rewrite K2.
Qed.

Lemma keys_add_same (i_n : Dict.t pystr (list nat)) (i_p : index_t) idx toks :
  forall p,
  Dict.keys i_n = Dict.keys i_p ->
  Dict.keys (add_tokens i_n idx toks)
  = Dict.keys (add_positions i_p idx (enumerate_from p toks)).
Proof.
  revert i_n i_p. induction toks as [|t toks IH]; intros i_n i_p p E.
  - exact E.
  - rewrite add_tokens_cons.
    change (add_positions i_p idx (enumerate_from p (t :: toks)))
      with (add_positions (record_position i_p t idx p) idx
              (enumerate_from (S p) toks)).
    apply IH. rewrite keys_record_position.
    unfold NonPositionalIndex.append_posting. rewrite DictFacts.keys_set.
    rewrite (mem_of_keys i_n i_p t E). now rewrite E.
Qed.

Lemma keys_after_same docs : forall n (i_n : Dict.t pystr (list nat)) i_p,
  Dict.keys i_n = Dict.keys i_p ->
  Dict.keys (index_after n docs i_n) = Dict.keys (pindex_after n docs i_p).
Proof.
  induction docs as [|d docs IH]; intros n i_n i_p E; [exact E|].
  simpl. apply IH. now apply keys_add_same.
Qed.

Lemma length_select_enumerate (token : pystr) toks : forall p,
  length (select token (enumerate_from p toks)) = count_occ eq_dec toks token.
Proof.
  unfold select. induction toks as [|t toks IH]; intros p; [reflexivity|].
  simpl. unfold eqb at 1. simpl.
  destruct (eq_dec t token); simpl; now rewrite IH.
Qed.

(** X6. The two builders agree on one list of documents: their indexes have
    the same keys in the same order, and the position list of a token in a
    document is as long as the number of times the document's identifier
    stands in the token's postings. *)
Theorem builders_agree (docs : list document) :
  Forall has_title docs ->
  exists sn sp,
    NonPositionalIndex.build_index docs NonPositionalIndex.init = (inr tt, sn) /\
    build_index docs init = (inr tt, sp) /\
    Dict.keys (NonPositionalIndex.index sn) = Dict.keys (index sp) /\
    forall token idx,
      length (positions (index sp) token idx)
      = count_occ Nat.eq_dec
          (NonPositionalIndex.postings (NonPositionalIndex.index sn) token) idx.
Proof.
  intros T. do 2 eexists.
  split; [now apply build_index_run|].
  split; [unfold build_index, enumerate; now apply record_docs_run|].
  simpl. split; [now apply keys_after_same|].
  intros token idx. rewrite positions_pindex_after, postings_index_after.
  simpl. rewrite count_select_scan. unfold doc_positions. simpl.
  destruct (nth_error docs (idx - 0)) as [d|]; [|reflexivity].
  apply length_select_enumerate.
Qed.

Lemma record_docs_partial pre d post : forall n s,
  Forall has_title pre ->
  lacks_title d ->
  for_each
    (fun '(idx, doc) =>
       title <- getitem doc (py "title") ;;
       for_each
         (fun '(position, token) =>
            modify (fun s =>
              set_index s (record_position (index s) token idx position)))
         (enumerate (tokenize title)))
    (enumerate_from n (pre ++ d :: post)) s
  = (inl (KeyError (py "title")),
     set_index s (pindex_after n pre (index s))).
Proof.
  induction pre as [|d0 pre IH]; intros n s T L; simpl.
  - unfold bind at 1. unfold bind at 1. unfold getitem.
    unfold lacks_title in L. rewrite L. unfold raise. now destruct s.
  - inversion T as [|? ? Td Tr]; subst. unfold has_title in Td.
    unfold bind at 1. unfold bind at 1. unfold getitem, doc_tokens.
    destruct (Dict.get d0 (py "title")) as [title|]; [|congruence].
    unfold ret at 1. rewrite record_tokens_run.
    rewrite IH by assumption. reflexivity.
Qed.

(** X7. The positional builder, too, raises [KeyError] at the first
    document without a title and keeps what it recorded before: the
    positions of the documents in front of it are in the index, nothing of
    the later ones.  On an empty list it returns and changes nothing. *)
Theorem positional_build_index_failure (s : self) :
  (forall pre d post,
     Forall has_title pre ->
     lacks_title d ->
     exists s',
       build_index (pre ++ d :: post) s = (inl (KeyError (py "title")), s') /\
       statistics s' = statistics s /\
       forall token idx,
         positions (index s') token idx
         = positions (index s) token idx
           ++ match nth_error pre idx with
              | Some d' => select token (enumerate (doc_tokens d'))
              | None => []
              end) /\
  build_index [] s = (inr tt, s).
Proof.
  split.
  - intros pre d post T L. eexists. split.
    { unfold build_index, enumerate. now apply record_docs_partial. }
    split; [reflexivity|]. intros token idx. simpl.
    rewrite positions_pindex_after. unfold doc_positions. simpl.
    now rewrite Nat.sub_0_r.
  - reflexivity.
Qed.

(** X8. A second call of the positional [build_index] on the same builder
    with the same documents records every position again: each position
    list becomes the list of the first call twice (a non-empty list is then
    no longer strictly increasing); the keys and their order stay. *)
Theorem positional_build_index_twice (docs : list document) :
  Forall has_title docs ->
  exists s1 s2,
    build_index docs init = (inr tt, s1) /\
    build_index docs s1 = (inr tt, s2) /\
    Dict.keys (index s2) = Dict.keys (index s1) /\
    forall token idx,
      positions (index s2) token idx
      = positions (index s1) token idx ++ positions (index s1) token idx.
Proof.
  intros T. do 2 eexists.
  split; [unfold build_index, enumerate; now apply record_docs_run|].
  split; [unfold build_index, enumerate; now apply record_docs_run|].
  simpl. split.
  - rewrite <- (keys_after_same docs 0 (index_after 0 docs Dict.empty)
                  (pindex_after 0 docs Dict.empty)).
    + rewrite <- (keys_after_same docs 0 Dict.empty Dict.empty) by reflexivity.
      apply keys_index_after_present. intros t I.
      rewrite mem_index_after. apply orb_true_iff. right.
      apply existsb_select. now apply select_nonempty.
    + now apply keys_after_same.
  - intros token idx.
    rewrite (positions_pindex_after token idx docs 0 (pindex_after _ _ _)).
    f_equal. now rewrite positions_pindex_after.
Qed.

End PositionalMore.

(** ** More on the statistics *)

Section StatisticsMore.
Context `{Unicode}.

Lemma stats_loop_fail docs : forall total tpf,
  Exists lacks_title docs ->
  stats_loop docs total tpf = inl (KeyError (py "title")).
Proof.
  induction docs as [|d docs IH]; intros total tpf E; [inversion E|].
  simpl. destruct (Dict.get d (py "title")) as [title|] eqn:G; [|reflexivity].
  apply IH. inversion E as [? ? L|? ? L]; subst; [|exact L].
  unfold lacks_title in L. congruence.
Qed.

Lemma compute_statistics_fail docs :
  Exists lacks_title docs ->
  compute_statistics docs = inl (KeyError (py "title")).
Proof.
  intros E. unfold compute_statistics. now rewrite stats_loop_fail.
Qed.

(** X9. If some document has no title, [calculate_statistics] raises
    [KeyError('title')] in both builders, whatever the other documents
    are, and the builder is left exactly as it was: no statistics are
    stored, and statistics stored by an earlier call stay. *)
Theorem calculate_statistics_missing_title (docs : list document) :
  Exists lacks_title docs ->
  (forall s : NonPositionalIndex.self,
     NonPositionalIndex.calculate_statistics docs s
     = (inl (KeyError (py "title")), s)) /\
  (forall s : PositionalIndex.self,
     PositionalIndex.calculate_statistics docs s
     = (inl (KeyError (py "title")), s)).
Proof.
  intros E. split; intros s.
  - unfold NonPositionalIndex.calculate_statistics.
    now rewrite compute_statistics_fail.
  - unfold PositionalIndex.calculate_statistics.
    now rewrite compute_statistics_fail.
Qed.

Lemma get_int_fields_after_any k docs : forall tpf,
  k <> py "url" ->
  Forall Dict.wf docs ->
  get_int (fields_after docs tpf) k = get_int tpf k + field_total k docs.
Proof.
  intros tpf U W. revert tpf.
  induction docs as [|d docs IH]; intros tpf.
  - unfold field_total. simpl. lia.
  - inversion W as [|? ? Wd Wr]; subst.
    change (fields_after (d :: docs) tpf)
      with (fields_after docs (count_fields d tpf)).
    rewrite IH by assumption.
    rewrite get_int_count_fields by exact U.
    rewrite field_tokens_wf by assumption.
    unfold field_total. simpl. lia.
Qed.

Lemma mem_set {V} (d : Dict.t pystr V) f v k :
  Dict.mem (Dict.set d f v) k = Dict.mem d k || eqb f k.
Proof.
  unfold Dict.mem, eqb. destruct (eq_dec f k) as [E|E].
  - subst. rewrite DictFacts.get_set_same. now rewrite orb_true_r.
  - rewrite DictFacts.get_set_other by assumption. now rewrite orb_false_r.
Qed.

Lemma mem_cons {V} (f : pystr) (v : V) (d : Dict.t pystr V) k :
  Dict.mem ((f, v) :: d) k = eqb f k || Dict.mem d k.
Proof. unfold Dict.mem, eqb. simpl. now destruct (eq_dec f k). Qed.

Lemma mem_count_fields k (d : document) : forall tpf,
  Dict.mem (count_fields d tpf) k
  = Dict.mem tpf k || (negb (eqb k (py "url")) && Dict.mem d k).
Proof.
  unfold count_fields.
  induction d as [|[f v] d IH]; intros tpf.
  - simpl. now rewrite andb_false_r, orb_false_r.
  - simpl. rewrite mem_cons. destruct (eqb f (py "url")) eqn:Fu.
    + rewrite IH. apply eqb_true_iff in Fu. subst f. unfold eqb.
      destruct (eq_dec k (py "url")) as [E|E];
        destruct (eq_dec (py "url") k) as [E'|E']; try congruence;
        reflexivity.
    + rewrite IH, mem_set. apply eqb_false_iff in Fu. unfold eqb.
      destruct (eq_dec f k) as [E|E]; simpl.
      * subst. destruct (eq_dec k (py "url")); [congruence|]. simpl.
        now rewrite orb_true_r.
      * now rewrite orb_false_r.
Qed.

Lemma mem_fields_after k docs : forall tpf,
  Dict.mem (fields_after docs tpf) k
  = Dict.mem tpf k
    || (negb (eqb k (py "url"))
        && existsb (fun d : document => Dict.mem d k) docs).
Proof.
  induction docs as [|d docs IH]; intros tpf.
  - simpl. now rewrite andb_false_r, orb_false_r.
  - change (fields_after (d :: docs) tpf)
      with (fields_after docs (count_fields d tpf)).
    rewrite IH, mem_count_fields. simpl.
    destruct (Dict.mem tpf k); destruct (eqb k (py "url")); reflexivity.
Qed.

(** X10. In the statistics stored for a non-empty list of documents with
    titles, [tokens_per_field] never has the key [url]; any other field
    name is a key exactly when some document has that field, and its count
    is the number of tokens of that field summed over the documents that
    have it. *)
Theorem tokens_per_field_counts (docs : list document)
    (s : NonPositionalIndex.self) :
  docs <> [] ->
  Forall has_title docs ->
  Forall Dict.wf docs ->
  exists st,
    NonPositionalIndex.calculate_statistics docs s
    = (inr tt, NonPositionalIndex.set_statistics s st) /\
    Dict.mem (tokens_per_field st) (py "url") = false /\
    forall k,
      k <> py "url" ->
      get_int (tokens_per_field st) k = field_total k docs /\
      Dict.mem (tokens_per_field st) k
      = existsb (fun d : document => Dict.mem d k) docs.
Proof.
  intros N T W.
  destruct (compute_statistics_ok docs N T) as [avg [_ E]].
  eexists. unfold NonPositionalIndex.calculate_statistics. rewrite E.
  split; [reflexivity|]. simpl. split.
  - rewrite mem_fields_after. now rewrite eqb_refl.
  - intros k U. split.
    + now rewrite get_int_fields_after_any.
    + rewrite mem_fields_after. apply eqb_false_iff in U. now rewrite U.
Qed.

End StatisticsMore.

(** ** More on the stemmed index *)

Section StemmingMore.
Import NonPositionalIndex.
Variable stem : pystr -> pystr.

Lemma set_fresh {V} (d : Dict.t pystr V) k v :
  Dict.get d k = None -> Dict.set d k v = d ++ [(k, v)].
Proof.
  induction d as [|[k0 v0] d IH]; simpl; [reflexivity|].
  destruct (eq_dec k0 k); [discriminate|]. intros G. now rewrite IH.
Qed.

Lemma stem_entries_fresh entries : forall acc,
  NoDup (Dict.keys acc ++ map stem (Dict.keys entries)) ->
  stem_entries stem entries acc
  = acc ++ map (fun e => (stem (fst e), snd e)) entries.
Proof.
  induction entries as [|[t p] entries IH]; intros acc N.
  - simpl. now rewrite app_nil_r.
  - change (stem_entries stem ((t, p) :: entries) acc)
      with (stem_entries stem entries (Dict.set acc (stem t) p)).
    simpl in N. pose proof (NoDup_remove_2 _ _ _ N) as F.
    assert (Dict.get acc (stem t) = None) as G.
    { apply DictFacts.get_None_keys. intros I. apply F.
      apply in_or_app. now left. }
    rewrite set_fresh by exact G. rewrite IH.
    + rewrite <- app_assoc. reflexivity.
    + unfold Dict.keys in *. rewrite map_app, <- app_assoc. exact N.
Qed.

(** X11. When no two tokens of the index have the same stem, [stem_index]
    loses nothing: the dumped dictionary is the index with every key
    replaced by its stem, entries in the same order and postings
    unchanged. *)
Theorem stem_index_no_collision (s : self) :
  NoDup (map stem (Dict.keys (index s))) ->
  stem_index stem s = map (fun e => (stem (fst e), snd e)) (index s).
Proof.
  intros N. unfold stem_index. fold (stem_entries stem (index s) Dict.empty).
  now rewrite stem_entries_fresh.
Qed.

Lemma In_set {V} (d : Dict.t pystr V) k' v' k v :
  In (k, v) (Dict.set d k' v') -> (k = k' /\ v = v') \/ In (k, v) d.
Proof.
  induction d as [|[k0 v0] d IH]; simpl.
  - intros [E|[]]. inversion E. now left.
  - destruct (eq_dec k0 k'); simpl.
    + intros [E|I]; [inversion E; subst; now left | right; now right].
    + intros [E|I]; [right; now left|].
      destruct (IH I) as [L|R]; [now left | right; now right].
Qed.

Lemma total_postings_set_le (d : Dict.t pystr (list nat)) k v :
  total_postings (Dict.set d k v) <= total_postings d + length v.
Proof.
  unfold total_postings. induction d as [|[k0 v0] d IH]; simpl; [lia|].
  destruct (eq_dec k0 k); simpl; lia.
Qed.

Lemma length_set_le {V} (d : Dict.t pystr V) k v :
  length (Dict.set d k v) <= S (length d).
Proof.
  induction d as [|[k0 v0] d IH]; simpl; [lia|].
  destruct (eq_dec k0 k); simpl; lia.
Qed.

Lemma stem_entries_sound entries : forall acc k p,
  In (k, p) (stem_entries stem entries acc) ->
  In (k, p) acc \/ exists t, In (t, p) entries /\ stem t = k.
Proof.
  induction entries as [|[t0 p0] entries IH]; intros acc k p I.
  - now left.
  - change (stem_entries stem ((t0, p0) :: entries) acc)
      with (stem_entries stem entries (Dict.set acc (stem t0) p0)) in I.
    destruct (IH _ _ _ I) as [A|[t [It E]]].
    + destruct (In_set _ _ _ _ _ A) as [[Ek Ep]|A']; [|now left].
      right. exists t0. subst. split; [now left | reflexivity].
    + right. exists t. split; [now right | exact E].
Qed.

Lemma stem_entries_bounds entries : forall acc,
  total_postings (stem_entries stem entries acc)
  <= total_postings acc + total_postings entries /\
  length (stem_entries stem entries acc) <= length acc + length entries.
Proof.
  induction entries as [|[t0 p0] entries IH]; intros acc.
  - unfold total_postings. simpl. lia.
  - change (stem_entries stem ((t0, p0) :: entries) acc)
      with (stem_entries stem entries (Dict.set acc (stem t0) p0)).
    destruct (IH (Dict.set acc (stem t0) p0)) as [T L].
    pose proof (total_postings_set_le acc (stem t0) p0).
    pose proof (length_set_le acc (stem t0) p0).
    unfold total_postings in *. simpl in *. lia.
Qed.

(** X12. [stem_index] invents nothing: every entry of the dumped dictionary
    is the stem of some token of the index with that token's own postings
    list, and the dictionary has no more keys and no more postings entries
    than the index. *)
Theorem stem_index_sound (s : self) :
  (forall k p,
     In (k, p) (stem_index stem s) ->
     exists t, In (t, p) (index s) /\ stem t = k) /\
  length (stem_index stem s) <= length (index s) /\
  total_postings (stem_index stem s) <= total_postings (index s).
Proof.
  unfold stem_index. fold (stem_entries stem (index s) Dict.empty).
  destruct (stem_entries_bounds (index s) Dict.empty) as [T L].
  split; [|split; [exact L | exact T]].
  intros k p I. destruct (stem_entries_sound _ _ _ _ I) as [[]|E]. exact E.
Qed.

End StemmingMore.

(** ** More on the crawling tokenizer *)

Section CrawlingMore.
Import AbstractIndex.
Context `{Unicode}.

Lemma existsb_eqb_In (t : pystr) l : existsb (eqb t) l = true <-> In t l.
Proof.
  rewrite existsb_exists. split.
  - intros [x [I E]]. apply eqb_true_iff in E. now subst.
  - intros I. exists t. split; [exact I | apply eqb_refl].
Qed.

Lemma record_token_In (s : self) t x :
  In x (tokens (record_token s t)) <-> In x (tokens s) \/ x = t.
Proof.
  unfold record_token. destruct (existsb (eqb t) (tokens s)) eqn:E.
  - apply existsb_eqb_In in E. split; [now left|].
    intros [I|I]; [exact I | now subst].
  - simpl. rewrite in_app_iff. simpl. intuition.
Qed.

Lemma record_tokens_In l : forall (s : self) x,
  In x (tokens (fold_left record_token l s)) <-> In x (tokens s) \/ In x l.
Proof.
  induction l as [|t l IH]; intros s x; simpl; [tauto|].
  rewrite IH, record_token_In. intuition.
Qed.

Lemma record_token_ok (s : self) t :
  vocabulary_ok s -> vocabulary_ok (record_token s t).
Proof.
  unfold vocabulary_ok, record_token. intros [L N].
  destruct (existsb (eqb t) (tokens s)) eqn:E; [now split|]. simpl.
  split; [rewrite length_app; simpl; lia|].
  apply NoDup_app; [exact N | constructor; [tauto | constructor] |].
  intros a Ia [Ea|[]]. subst a. apply existsb_eqb_In in Ia. congruence.
Qed.

Lemma record_tokens_ok l : forall s : self,
  vocabulary_ok s -> vocabulary_ok (fold_left record_token l s).
Proof.
  induction l as [|t l IH]; intros s V; [exact V|].
  simpl. apply IH. now apply record_token_ok.
Qed.

Lemma record_tokens_prefix l : forall s : self,
  exists new, tokens (fold_left record_token l s) = tokens s ++ new.
Proof.
  induction l as [|t l IH]; intros s; simpl.
  - exists []. now rewrite app_nil_r.
  - destruct (IH (record_token s t)) as [new E]. rewrite E.
    unfold record_token. destruct (existsb (eqb t) (tokens s)).
    + now exists new.
    + simpl. exists ([t] ++ new). now rewrite app_assoc.
Qed.

Lemma stopwords_record_tokens l : forall s : self,
  stopwords (fold_left record_token l s) = stopwords s.
Proof.
  induction l as [|t l IH]; intros s; [reflexivity|].
  simpl. rewrite IH. unfold record_token.
  now destruct (existsb (eqb t) (tokens s)).
Qed.

(** [tokenize], with the options read from the crawler it starts from. *)
Lemma tokenize_unfold text (s : self) :
  tokenize text s
  = (inr (let kept :=
            match stopwords s with
            | Some (w :: ws) =>
                filter
                  (fun token =>
                     negb (existsb (eqb (str_lower token)) (w :: ws)))
                  (raw_tokens text)
            | _ => raw_tokens text
            end in
          match stemmer s with
          | Some stem => map stem kept
          | None => kept
          end),
     fold_left record_token (raw_tokens text) s).
Proof.
  unfold tokenize. fold (raw_tokens text).
  now rewrite stopwords_record_tokens, stemmer_record_tokens.
Qed.

(** X13. [tokenize] keeps the vocabulary of the crawler in order: if
    [nb_tokens] is the length of [self.tokens] and no token is listed
    twice (as after [__init__]), the same holds after the call; the tokens
    listed before stay, in place; a token is listed afterwards exactly when
    it was listed before or occurs in the text; the options are unchanged. *)
Theorem tokenize_vocabulary (text : pystr) (s : self) :
  vocabulary_ok s ->
  exists toks s',
    tokenize text s = (inr toks, s') /\
    vocabulary_ok s' /\
    (exists new, tokens s' = tokens s ++ new) /\
    (forall t, In t (tokens s') <-> In t (tokens s) \/ In t (raw_tokens text)) /\
    stopwords s' = stopwords s /\
    stemmer s' = stemmer s.
Proof.
  intros V. do 2 eexists. split; [apply tokenize_unfold|].
  split; [now apply record_tokens_ok|].
  split; [apply record_tokens_prefix|].
  split; [intros t; apply record_tokens_In|].
  split; [apply stopwords_record_tokens | apply stemmer_record_tokens].
Qed.

Lemma raw_tokens_shape text :
  Forall (fun t => t <> [] /\ forallb (fun c => negb (is_space c)) t = true)
    (raw_tokens text).
Proof.
  unfold raw_tokens, split.
  match goal with |- Forall _ (runs ?p [] ?x) =>
    pose proof (runs_nonempty p x []) as N;
    pose proof (runs_all p x [] eq_refl) as A
  end.
  rewrite Forall_forall in *. intros t I. split; [now apply N | now apply A].
Qed.

(** X14. Without a stemmer, every token returned by [tokenize] is
    non-empty and contains no whitespace character, and the returned tokens
    are tokens of the text in their order of occurrence (the stopword
    filter only removes some). *)
Theorem tokenize_token_shape (text : pystr) (s : self) :
  stemmer s = None ->
  exists toks s',
    tokenize text s = (inr toks, s') /\
    Forall (fun t => t <> [] /\ forallb (fun c => negb (is_space c)) t = true)
      toks /\
    exists keep, toks = filter keep (raw_tokens text).
Proof.
  intros St. do 2 eexists. split; [apply tokenize_unfold|].
  rewrite St. simpl.
  pose proof (raw_tokens_shape text) as R.
  destruct (stopwords s) as [[|w ws]|].
  - split; [exact R|]. exists (fun _ => true). symmetry. now apply filter_all.
  - split; [|eexists; reflexivity].
    rewrite Forall_forall in *. intros t I. apply filter_In in I.
    apply R. tauto.
  - split; [exact R|]. exists (fun _ => true). symmetry. now apply filter_all.
Qed.

(** X15. With a non-empty stopword list and no stemmer, [tokenize] returns
    the tokens of the text whose lowercase form is not in the list, in
    order; the tokens it drops are still entered in the vocabulary.  An
    empty stopword list, like none, filters nothing. *)
Theorem tokenize_stopwords (text : pystr) (s : self) :
  stemmer s = None ->
  (forall w ws,
     stopwords s = Some (w :: ws) ->
     exists toks s',
       tokenize text s = (inr toks, s') /\
       toks = filter (fun t => negb (existsb (eqb (str_lower t)) (w :: ws)))
                (raw_tokens text) /\
       Forall (fun t => ~ In (str_lower t) (w :: ws)) toks /\
       (forall t, In t (raw_tokens text) -> In t (tokens s'))) /\
  (stopwords s = Some [] \/ stopwords s = None ->
   fst (tokenize text s) = inr (raw_tokens text)).
Proof.
  intros St. split.
  - intros w ws Sw. do 2 eexists. split; [apply tokenize_unfold|].
    rewrite St, Sw. simpl. split; [reflexivity|]. split.
    + apply Forall_forall. intros t I. apply filter_In in I.
      destruct I as [_ E]. apply negb_true_iff in E. intros J.
      apply (proj2 (existsb_eqb_In (str_lower t) (w :: ws))) in J.
      simpl in J. congruence.
    + intros t I. apply record_tokens_In. now right.
  - intros [E|E]; rewrite tokenize_unfold, St, E; reflexivity.
Qed.

Lemma drop_while_In p c text :
  In c text -> p c = false -> In c (drop_while p text).
Proof.
  intros I P. induction text as [|x text IH]; [inversion I|].
  simpl. destruct (p x) eqn:Px; [|exact I].
  destruct I as [E|I]; [subst; congruence | auto].
Qed.

(** X16. The first substitution of [tokenize] is all or nothing: its
    result is the text itself, the empty text, or a lone newline.  A text
    with a character outside the class other than a newline, for instance
    a space, comes out unchanged: the step removes no character from a
    text of several words. *)
Theorem sub_anchored_all_or_nothing :
  (forall text,
     sub_anchored text = text \/ sub_anchored text = []
     \/ sub_anchored text = [10%N]) /\
  (forall text c,
     In c text -> keep_char c = false -> c <> 10%N ->
     sub_anchored text = text) /\
  (forall text, In 32%N text -> sub_anchored text = text).
Proof.
  assert (forall text c,
            In c text -> keep_char c = false -> c <> 10%N ->
            sub_anchored text = text) as U.
  { intros text c I K N. apply sub_anchored_otherwise.
    - intros E. pose proof (drop_while_In keep_char c text I K) as J.
      rewrite E in J. inversion J.
    - intros E. pose proof (drop_while_In keep_char c text I K) as J.
      rewrite E in J. destruct J as [J|[]]. congruence. }
  split; [|split; [exact U|]].
  - intros text. unfold sub_anchored.
    destruct (length (drop_while keep_char text) <? length text);
      [|now left]. simpl.
    destruct (eqb (drop_while keep_char text) []) eqn:E1.
    + apply eqb_true_iff in E1. right. now left.
    + destruct (eqb (drop_while keep_char text) [10%N]) eqn:E2; [|now left].
      apply eqb_true_iff in E2. right. now right.
  - intros text I. apply (U text 32%N I); [reflexivity | discriminate].
Qed.

End CrawlingMore.

(** ** Builders and their statistics; the program *)

Section Program.
Context `{Unicode}.
Variable stem : pystr -> pystr.

Lemma non_positional_docs_keep_statistics docs : forall n s,
  NonPositionalIndex.statistics
    (snd (for_each
            (fun '(idx, doc) =>
               title <- getitem doc (py "title") ;;
               for_each
                 (fun token =>
                    modify (fun s =>
                      NonPositionalIndex.set_index s
                        (NonPositionalIndex.append_posting
                           (NonPositionalIndex.index s) token idx)))
                 (tokenize title))
            (enumerate_from n docs) s))
  = NonPositionalIndex.statistics s.
Proof.
  induction docs as [|d docs IH]; intros n s; [reflexivity|].
  simpl. unfold bind at 1. unfold bind at 1. unfold getitem.
  destruct (Dict.get d (py "title")) as [title|]; [|reflexivity].
  unfold ret at 1. rewrite build_tokens_run. now rewrite IH.
Qed.

Lemma positional_docs_keep_statistics docs : forall n s,
  PositionalIndex.statistics
    (snd (for_each
            (fun '(idx, doc) =>
               title <- getitem doc (py "title") ;;
               for_each
                 (fun '(position, token) =>
                    modify (fun s =>
                      PositionalIndex.set_index s
                        (PositionalIndex.record_position
                           (PositionalIndex.index s) token idx position)))
                 (enumerate (tokenize title)))
            (enumerate_from n docs) s))
  = PositionalIndex.statistics s.
Proof.
  induction docs as [|d docs IH]; intros n s; [reflexivity|].
  simpl. unfold bind at 1. unfold bind at 1. unfold getitem.
  destruct (Dict.get d (py "title")) as [title|]; [|reflexivity].
  unfold ret at 1. rewrite record_tokens_run. now rewrite IH.
Qed.

Lemma positional_build_run docs s :
  Forall has_title docs ->
  PositionalIndex.build_index docs s
  = (inr tt,
     PositionalIndex.set_index s (pindex_after 0 docs (PositionalIndex.index s))).
Proof. intros T. now apply record_docs_run. Qed.

Lemma positional_build_partial pre d post s :
  Forall has_title pre ->
  lacks_title d ->
  PositionalIndex.build_index (pre ++ d :: post) s
  = (inl (KeyError (py "title")),
     PositionalIndex.set_index s (pindex_after 0 pre (PositionalIndex.index s))).
Proof. intros T L. now apply record_docs_partial. Qed.

Lemma positional_build_statistics docs s :
  PositionalIndex.statistics (snd (PositionalIndex.build_index docs s))
  = PositionalIndex.statistics s.
Proof. apply positional_docs_keep_statistics. Qed.

Lemma non_positional_build_statistics docs s :
  NonPositionalIndex.statistics (snd (NonPositionalIndex.build_index docs s))
  = NonPositionalIndex.statistics s.
Proof. apply non_positional_docs_keep_statistics. Qed.

(** X17. [build_index] never touches the statistics: in both builders the
    statistics after the call are those before it, whether the call
    returns or raises part of the way. *)
Theorem build_index_keeps_statistics (docs : list document) :
  (forall s : NonPositionalIndex.self,
     NonPositionalIndex.statistics
       (snd (NonPositionalIndex.build_index docs s))
     = NonPositionalIndex.statistics s) /\
  (forall s : PositionalIndex.self,
     PositionalIndex.statistics (snd (PositionalIndex.build_index docs s))
     = PositionalIndex.statistics s).
Proof.
  split; intros s.
  - apply non_positional_build_statistics.
  - apply positional_build_statistics.
Qed.

(** X18. Writing the statistics of a builder that has only built its index.
    The positional builder has no attribute [statistics] yet: the call
    raises [AttributeError] after the file has been opened, which leaves
    the file empty.  The non-positional builder dumps the empty dictionary
    set by [__init__]. *)
Theorem write_statistics_before_calculate (docs : list document)
    (filename : pystr) (fs : files) :
  PositionalIndex.write_statistics_to_file filename
    (snd (PositionalIndex.build_index docs PositionalIndex.init)) fs
  = (inl (AttributeError (py "statistics")), Dict.set fs filename EmptyFile) /\
  NonPositionalIndex.write_statistics_to_file filename
    (snd (NonPositionalIndex.build_index docs NonPositionalIndex.init)) fs
  = Dict.set fs filename (DumpStatistics None).
Proof.
  split.
  - unfold PositionalIndex.write_statistics_to_file.
    now rewrite positional_build_statistics.
  - unfold NonPositionalIndex.write_statistics_to_file.
    now rewrite non_positional_build_statistics.
Qed.

(** The first document without a title. *)
Lemma first_untitled docs :
  Exists lacks_title docs ->
  exists pre d post,
    docs = pre ++ d :: post /\ Forall has_title pre /\ lacks_title d.
Proof.
  induction docs as [|d docs IH]; intros E; [inversion E|].
  destruct (Dict.get d (py "title")) as [title|] eqn:G.
  - assert (Exists lacks_title docs) as E'.
    { inversion E as [? ? L|? ? L]; subst; [|exact L].
      unfold lacks_title in L. congruence. }
    destruct (IH E') as [pre [d' [post [D [T L]]]]].
    exists (d :: pre), d', post. subst docs. split; [reflexivity|].
    split; [|exact L]. constructor; [|exact T].
    unfold has_title. congruence.
  - exists [], d, docs. split; [reflexivity|]. split; [constructor | exact G].
Qed.

Lemma non_positional_build_fail docs s :
  Exists lacks_title docs ->
  fst (NonPositionalIndex.build_index docs s) = inl (KeyError (py "title")).
Proof. intros E. now apply build_docs_fail. Qed.

Lemma positional_build_fail docs s :
  Exists lacks_title docs ->
  fst (PositionalIndex.build_index docs s) = inl (KeyError (py "title")).
Proof.
  intros E. destruct (first_untitled docs E) as [pre [d [post [D [T L]]]]].
  subst docs. now rewrite positional_build_partial.
Qed.

(** X19. [main] writes no file at all when it fails: when the input file
    is missing, when the list of documents is empty (the statistics are
    computed, and divide by zero, before the first file is written), and
    when a document has no title; this holds with and without
    [--pos_idx]. *)
Theorem main_failure_writes_nothing (pos_idx : bool) (fs : files) :
  main stem pos_idx None fs
  = (inl (FileNotFoundError (py "data/crawled_urls.json")), fs) /\
  main stem pos_idx (Some []) fs = (inl (Raised ZeroDivisionError), fs) /\
  (forall docs,
     Exists lacks_title docs ->
     main stem pos_idx (Some docs) fs
     = (inl (Raised (KeyError (py "title"))), fs)).
Proof.
  split; [reflexivity|]. split; [now destruct pos_idx|].
  intros docs E. unfold main. simpl. destruct pos_idx.
  - pose proof (positional_build_fail docs PositionalIndex.init E) as F.
    destruct (PositionalIndex.build_index docs PositionalIndex.init)
      as [[e|u] b]; simpl in F; [|discriminate]. congruence.
  - pose proof (non_positional_build_fail docs NonPositionalIndex.init E) as F.
    destruct (NonPositionalIndex.build_index docs NonPositionalIndex.init)
      as [[e|u] b]; simpl in F; [|discriminate]. congruence.
Qed.

Lemma get_set3 (fs : files) a b c x y z f :
  f <> a -> f <> b -> f <> c ->
  Dict.get (Dict.set (Dict.set (Dict.set fs a x) b y) c z) f = Dict.get fs f.
Proof.
  intros A B C.
  rewrite !DictFacts.get_set_other by congruence. reflexivity.
Qed.

(** X20. Without [--pos_idx], on a non-empty list of documents with
    titles, [main] succeeds and writes three files: the index built from
    the documents, its stemmed derivation, and the statistics, whose
    [total_tokens] is the number of postings entries of the index written.
    No other file is touched. *)
Theorem main_non_positional (docs : list document) (fs : files) :
  docs <> [] ->
  Forall has_title docs ->
  exists b st fs',
    NonPositionalIndex.build_index docs NonPositionalIndex.init = (inr tt, b) /\
    compute_statistics docs = inr st /\
    main stem false (Some docs) fs = (inr tt, fs') /\
    Dict.get fs' (py "title.non_pos_index.json")
    = Some (DumpPostings (NonPositionalIndex.index b)) /\
    Dict.get fs' (py "mon_stemmer.title.non_pos_index.json")
    = Some (DumpPostings (NonPositionalIndex.stem_index stem b)) /\
    Dict.get fs' (py "metadata.json") = Some (DumpStatistics (Some st)) /\
    total_postings (NonPositionalIndex.index b) = total_tokens st /\
    forall f,
      f <> py "title.non_pos_index.json" ->
      f <> py "mon_stemmer.title.non_pos_index.json" ->
      f <> py "metadata.json" ->
      Dict.get fs' f = Dict.get fs f.
Proof.
  intros N T.
  destruct (compute_statistics_ok docs N T) as [avg [_ E]].
  do 3 eexists.
  split; [now apply build_index_run|].
  split; [exact E|].
  split.
  { unfold main. simpl. rewrite build_index_run by assumption.
    unfold NonPositionalIndex.calculate_statistics. rewrite E. reflexivity. }
  unfold NonPositionalIndex.write_statistics_to_file,
    NonPositionalIndex.stem_index_to_file,
    NonPositionalIndex.write_index_to_file.
  split.
  { rewrite !DictFacts.get_set_other by discriminate.
    now rewrite DictFacts.get_set_same. }
  split.
  { rewrite DictFacts.get_set_other by discriminate.
    now rewrite DictFacts.get_set_same. }
  split; [now rewrite DictFacts.get_set_same|].
  split.
  { simpl. rewrite total_postings_index_after. reflexivity. }
  intros f A B C. now apply get_set3.
Qed.

(** X21. With [--pos_idx], on a non-empty list of documents with titles,
    [main] succeeds and writes two files, the positional index built from
    the documents and the statistics; it writes no stemmed index and
    touches no other file. *)
Theorem main_positional (docs : list document) (fs : files) :
  docs <> [] ->
  Forall has_title docs ->
  exists b st fs',
    PositionalIndex.build_index docs PositionalIndex.init = (inr tt, b) /\
    compute_statistics docs = inr st /\
    main stem true (Some docs) fs = (inr tt, fs') /\
    Dict.get fs' (py "title.pos_index.json")
    = Some (DumpPositions (PositionalIndex.index b)) /\
    Dict.get fs' (py "metadata.json") = Some (DumpStatistics (Some st)) /\
    forall f,
      f <> py "title.pos_index.json" ->
      f <> py "metadata.json" ->
      Dict.get fs' f = Dict.get fs f.
Proof.
  intros N T.
  destruct (compute_statistics_ok docs N T) as [avg [_ E]].
  do 3 eexists.
  split; [now apply positional_build_run|].
  split; [exact E|].
  split.
  { unfold main. simpl. rewrite positional_build_run by assumption.
    unfold PositionalIndex.calculate_statistics. rewrite E. reflexivity. }
  unfold PositionalIndex.write_index_to_file.
  split.
  { rewrite DictFacts.get_set_other by discriminate.
    now rewrite DictFacts.get_set_same. }
  split; [now rewrite DictFacts.get_set_same|].
  intros f A B. rewrite !DictFacts.get_set_other by congruence. reflexivity.
Qed.

End Program.

(** * The model on concrete inputs, with the ASCII tables *)

Example scenario_non_positional :
  NonPositionalIndex.build_index scenario NonPositionalIndex.init
  = (inr tt,
     {| NonPositionalIndex.index :=
          [(py "le", [0]); (py "chat", [0; 1]); (py "noir", [0]);
           (py "un", [1]); (py "blanc", [1])];
        NonPositionalIndex.statistics := None |}).
Proof. vm_compute. reflexivity. Qed.

Example scenario_positional :
  PositionalIndex.build_index scenario PositionalIndex.init
  = (inr tt,
     {| PositionalIndex.index :=
          [(py "le", [(0, [0])]); (py "chat", [(0, [1]); (1, [1])]);
           (py "noir", [(0, [2])]); (py "un", [(1, [0])]);
           (py "blanc", [(1, [2])])];
        PositionalIndex.statistics := None |}).
Proof. vm_compute. reflexivity. Qed.

Example scenario_statistics :
  compute_statistics scenario
  = inr {| num_documents := 2;
           total_tokens := 6;
           tokens_per_field := [(py "title", 6)];
           avg_tokens_per_doc := 6 # 2 |}.
Proof. vm_compute. reflexivity. Qed.

(** A title with a repeated word: one postings entry per occurrence. *)
Example repeated_token :
  NonPositionalIndex.index
    (snd (NonPositionalIndex.build_index
            [[(py "title", py "chat chat chat")]] NonPositionalIndex.init))
  = [(py "chat", [0; 0; 0])].
Proof. vm_compute. reflexivity. Qed.

Example crawl_sentence :
  fst (AbstractIndex.tokenize (py "Le chat, noir!") crawler)
  = inr [py "le"; py "chat"; py "noir"].
Proof. vm_compute. reflexivity. Qed.

Example crawl_word :
  fst (AbstractIndex.tokenize (py "chat") crawler) = inr [].
Proof. vm_compute. reflexivity. Qed.

Lemma build_index_postings_witness :
  Forall has_title scenario /\
  exists s,
    NonPositionalIndex.build_index scenario NonPositionalIndex.init
    = (inr tt, s) /\
    NonPositionalIndex.postings (NonPositionalIndex.index s) (py "chat")
    = [0; 1].
Proof.
  assert (Forall has_title scenario) as T by all_titles.
  split; [exact T|].
  destruct (build_index_postings scenario T) as [s [E P]].
  exists s. split; [exact E|].
  rewrite (proj1 (P (py "chat"))). reflexivity.
Defined.

Lemma build_index_positions_witness :
  Forall has_title scenario /\
  exists s,
    PositionalIndex.build_index scenario PositionalIndex.init = (inr tt, s) /\
    forall ps,
      Dict.get (PositionalIndex.inner (PositionalIndex.index s) (py "chat")) 1
      = Some ps ->
      StronglySorted lt ps /\ forall q, In q ps -> q < 3.
Proof.
  assert (Forall has_title scenario) as T by all_titles.
  split; [exact T|].
  destruct (build_index_positions scenario T) as [s [E P]].
  exists s. split; [exact E|]. intros ps G.
  destruct (Dict.get (PositionalIndex.index s) (py "chat")) as [m|] eqn:Gm.
  - unfold PositionalIndex.inner in G. rewrite Gm in G.
    destruct (P (py "chat") 1 m ps Gm G) as [d [D [_ [S I]]]].
    split; [exact S|]. intros q Q. apply I in Q.
    inversion D; subst d.
    match type of Q with
    | nth_error ?l q = Some _ =>
        assert (q < length l) as L by (apply nth_error_Some; congruence)
    end.
    exact L.
  - unfold PositionalIndex.inner in G. rewrite Gm in G. discriminate G.
Defined.

Lemma average_times_documents_witness :
  scenario <> [] /\
  Forall has_title scenario /\
  exists st,
    NonPositionalIndex.calculate_statistics scenario NonPositionalIndex.init
    = (inr tt, NonPositionalIndex.set_statistics NonPositionalIndex.init st) /\
    (avg_tokens_per_doc st * inject_Z 2 == inject_Z 6)%Q.
Proof.
  assert (scenario <> []) as N by discriminate.
  assert (Forall has_title scenario) as T by all_titles.
  split; [exact N|]. split; [exact T|].
  destruct (average_times_documents scenario NonPositionalIndex.init N T)
    as [st [E [Nd [Tt Q]]]].
  exists st. split; [exact E|]. rewrite Nd, Tt in Q. exact Q.
Defined.

Lemma build_index_missing_field_witness :
  Exists lacks_title [[(py "title", py "a")]; [(py "url", py "u2")]] /\
  fst (NonPositionalIndex.build_index
         [[(py "title", py "a")]; [(py "url", py "u2")]]
         NonPositionalIndex.init)
  = inl (KeyError (py "title")).
Proof.
  assert (Exists lacks_title [[(py "title", py "a")]; [(py "url", py "u2")]])
    as E by (apply Exists_cons_tl, Exists_cons_hd; reflexivity).
  split; [exact E|].
  exact (proj1 build_index_missing_field _ NonPositionalIndex.init E).
Defined.

(** One document, indexed twice by the same builder. *)
Lemma build_index_second_call :
  exists s1 s2,
    NonPositionalIndex.build_index [[(py "title", py "a")]]
      NonPositionalIndex.init = (inr tt, s1) /\
    NonPositionalIndex.build_index [[(py "title", py "a")]] s1
    = (inr tt, s2) /\
    NonPositionalIndex.index s1 = [(py "a", [0])] /\
    NonPositionalIndex.index s2 = [(py "a", [0; 0])].
Proof.
  do 2 eexists. split; [vm_compute; reflexivity|].
  split; [vm_compute; reflexivity|].
  split; reflexivity.
Qed.

Lemma build_index_twice_witness :
  Forall has_title scenario /\
  exists s1 s2,
    NonPositionalIndex.build_index scenario NonPositionalIndex.init
    = (inr tt, s1) /\
    NonPositionalIndex.build_index scenario s1 = (inr tt, s2) /\
    NonPositionalIndex.postings (NonPositionalIndex.index s2) (py "chat")
    = NonPositionalIndex.postings (NonPositionalIndex.index s1) (py "chat")
      ++ NonPositionalIndex.postings (NonPositionalIndex.index s1) (py "chat").
Proof.
  assert (Forall has_title scenario) as T by all_titles.
  split; [exact T|].
  destruct (build_index_twice scenario T) as [s1 [s2 [E1 [_ [E2 [_ P]]]]]].
  exists s1, s2. split; [exact E1|]. split; [exact E2|]. apply P.
Defined.

(** The outcome of [calculate_statistics] on an empty corpus is not the
    error of a guard. *)
Lemma calculate_statistics_unguarded :
  guarded_error
    (fst (NonPositionalIndex.calculate_statistics [] NonPositionalIndex.init))
  = false.
Proof. vm_compute. reflexivity. Qed.

Lemma postings_total_is_total_tokens_witness :
  Forall has_title scenario /\
  Forall Dict.wf scenario /\
  exists s st,
    NonPositionalIndex.build_index scenario NonPositionalIndex.init
    = (inr tt, s) /\
    total_postings (NonPositionalIndex.index s) = total_tokens st /\
    get_int (tokens_per_field st) (py "title") = total_tokens st.
Proof.
  assert (Forall has_title scenario) as T by all_titles.
  assert (Forall Dict.wf scenario) as W by all_wf.
  split; [exact T|]. split; [exact W|].
  destruct (postings_total_is_total_tokens scenario T W) as [s [E [C N]]].
  assert (scenario <> []) as NE by discriminate.
  destruct (N NE) as [s' R].
  destruct (C s' R) as [st [_ [P F]]].
  exists s, st. split; [exact E|]. split; [exact P | exact F].
Defined.

Example stem_index_collision :
  NonPositionalIndex.stem_index drop_final_s plural_index
  = [(py "chat", [1]); (py "noir", [0])].
Proof. vm_compute. reflexivity. Qed.

Lemma stem_index_last_wins_witness :
  Dict.get (NonPositionalIndex.stem_index drop_final_s plural_index) (py "chat")
  = Some [1].
Proof.
  apply (proj1 (proj2 (stem_index_last_wins drop_final_s plural_index))
           [] (py "chat") [0] [] (py "chats") [1] [(py "noir", [0])]).
  - reflexivity.
  - reflexivity.
  - intros t' p' [E|[]]. inversion E. vm_compute. discriminate.
Defined.

(** ** Witnesses of the further properties *)

Lemma build_index_keys_first_seen_witness :
  Forall has_title scenario /\
  exists s,
    NonPositionalIndex.build_index scenario NonPositionalIndex.init
    = (inr tt, s) /\
    Dict.keys (NonPositionalIndex.index s)
    = [py "le"; py "chat"; py "noir"; py "un"; py "blanc"].
Proof.
  assert (Forall has_title scenario) as T by all_titles.
  split; [exact T|].
  destruct (build_index_keys_first_seen scenario T) as [s [E [K _]]].
  exists s. split; [exact E|]. rewrite K. vm_compute. reflexivity.
Defined.

Lemma build_index_postings_sorted_witness :
  Forall has_title scenario /\
  exists s,
    NonPositionalIndex.build_index scenario NonPositionalIndex.init
    = (inr tt, s) /\
    StronglySorted le
      (NonPositionalIndex.postings (NonPositionalIndex.index s) (py "chat")).
Proof.
  assert (Forall has_title scenario) as T by all_titles.
  split; [exact T|].
  destruct (build_index_postings_sorted scenario T) as [s [E P]].
  exists s. split; [exact E|]. apply P.
Defined.

Lemma build_index_partial_witness :
  Forall has_title [[(py "title", py "a")]] /\
  lacks_title [(py "url", py "u2")] /\
  exists s',
    NonPositionalIndex.build_index untitled NonPositionalIndex.init
    = (inl (KeyError (py "title")), s') /\
    NonPositionalIndex.postings (NonPositionalIndex.index s') (py "a") = [0].
Proof.
  assert (Forall has_title [[(py "title", py "a")]]) as T by all_titles.
  assert (lacks_title [(py "url", py "u2")]) as L by reflexivity.
  split; [exact T|]. split; [exact L|].
  destruct (build_index_partial [[(py "title", py "a")]] []
              [(py "url", py "u2")] NonPositionalIndex.init T L)
    as [s' [E [_ P]]].
  exists s'. split; [exact E|]. rewrite P. vm_compute. reflexivity.
Defined.

Lemma build_index_batches_witness :
  Forall has_title [[(py "title", py "a")]] /\
  exists s1 s2 s,
    NonPositionalIndex.build_index [[(py "title", py "a")]]
      NonPositionalIndex.init = (inr tt, s1) /\
    NonPositionalIndex.build_index [[(py "title", py "a")]] s1 = (inr tt, s2) /\
    NonPositionalIndex.build_index
      ([[(py "title", py "a")]] ++ [[(py "title", py "a")]])
      NonPositionalIndex.init = (inr tt, s) /\
    NonPositionalIndex.postings (NonPositionalIndex.index s2) (py "a") = [0; 0] /\
    NonPositionalIndex.postings (NonPositionalIndex.index s) (py "a") = [0; 1].
Proof.
  assert (Forall has_title [[(py "title", py "a")]]) as T by all_titles.
  split; [exact T|].
  destruct (build_index_batches _ _ T T) as [s1 [s2 [s [E1 [E2 [E P]]]]]].
  exists s1, s2, s. split; [exact E1|]. split; [exact E2|]. split; [exact E|].
  destruct (P (py "a")) as [P2 P3]. rewrite P2, P3.
  split; vm_compute; reflexivity.
Defined.

Lemma builders_agree_witness :
  Forall has_title scenario /\
  exists sn sp,
    NonPositionalIndex.build_index scenario NonPositionalIndex.init
    = (inr tt, sn) /\
    PositionalIndex.build_index scenario PositionalIndex.init = (inr tt, sp) /\
    Dict.keys (NonPositionalIndex.index sn)
    = Dict.keys (PositionalIndex.index sp).
Proof.
  assert (Forall has_title scenario) as T by all_titles.
  split; [exact T|].
  destruct (builders_agree scenario T) as [sn [sp [En [Ep [K _]]]]].
  exists sn, sp. split; [exact En|]. split; [exact Ep | exact K].
Defined.

Lemma positional_build_index_twice_witness :
  Forall has_title scenario /\
  exists s1 s2,
    PositionalIndex.build_index scenario PositionalIndex.init = (inr tt, s1) /\
    PositionalIndex.build_index scenario s1 = (inr tt, s2) /\
    PositionalIndex.positions (PositionalIndex.index s2) (py "chat") 0
    = PositionalIndex.positions (PositionalIndex.index s1) (py "chat") 0
      ++ PositionalIndex.positions (PositionalIndex.index s1) (py "chat") 0.
Proof.
  assert (Forall has_title scenario) as T by all_titles.
  split; [exact T|].
  destruct (positional_build_index_twice scenario T)
    as [s1 [s2 [E1 [E2 [_ P]]]]].
  exists s1, s2. split; [exact E1|]. split; [exact E2 | apply P].
Defined.

Lemma calculate_statistics_missing_title_witness :
  Exists lacks_title untitled /\
  NonPositionalIndex.calculate_statistics untitled NonPositionalIndex.init
  = (inl (KeyError (py "title")), NonPositionalIndex.init).
Proof.
  assert (Exists lacks_title untitled) as E
    by (apply Exists_cons_tl, Exists_cons_hd; reflexivity).
  split; [exact E|].
  apply (proj1 (calculate_statistics_missing_title untitled E)).
Defined.

Lemma tokens_per_field_counts_witness :
  scenario <> [] /\
  Forall has_title scenario /\
  Forall Dict.wf scenario /\
  exists st,
    NonPositionalIndex.calculate_statistics scenario NonPositionalIndex.init
    = (inr tt, NonPositionalIndex.set_statistics NonPositionalIndex.init st) /\
    Dict.mem (tokens_per_field st) (py "url") = false /\
    get_int (tokens_per_field st) (py "title") = 6.
Proof.
  assert (scenario <> []) as N by discriminate.
  assert (Forall has_title scenario) as T by all_titles.
  assert (Forall Dict.wf scenario) as W by all_wf.
  split; [exact N|]. split; [exact T|]. split; [exact W|].
  destruct (tokens_per_field_counts scenario NonPositionalIndex.init N T W)
    as [st [E [U K]]].
  exists st. split; [exact E|]. split; [exact U|].
  rewrite (proj1 (K (py "title") title_not_url)). vm_compute. reflexivity.
Defined.

Lemma stem_index_no_collision_witness :
  NoDup (map drop_final_s
           (Dict.keys (NonPositionalIndex.index singular_index))) /\
  NonPositionalIndex.stem_index drop_final_s singular_index
  = [(py "chat", [0; 1]); (py "noir", [0])].
Proof.
  assert (NoDup (map drop_final_s
                   (Dict.keys (NonPositionalIndex.index singular_index)))) as N.
  { repeat (apply NoDup_cons; [vm_compute; intuition discriminate|]).
    apply NoDup_nil. }
  split; [exact N|].
  rewrite (stem_index_no_collision drop_final_s singular_index N).
  vm_compute. reflexivity.
Defined.

Lemma tokenize_vocabulary_witness :
  vocabulary_ok crawler /\
  exists toks s',
    AbstractIndex.tokenize (py "Le chat") crawler = (inr toks, s') /\
    vocabulary_ok s'.
Proof.
  assert (vocabulary_ok crawler) as V by (split; [reflexivity | constructor]).
  split; [exact V|].
  destruct (tokenize_vocabulary (py "Le chat") crawler V)
    as [toks [s' [E [V' _]]]].
  exists toks, s'. split; [exact E | exact V'].
Defined.

Lemma tokenize_token_shape_witness :
  AbstractIndex.stemmer crawler = None /\
  exists toks s',
    AbstractIndex.tokenize (py "Le chat") crawler = (inr toks, s') /\
    Forall (fun t => t <> [] /\ forallb (fun c => negb (is_space c)) t = true)
      toks.
Proof.
  split; [reflexivity|].
  destruct (tokenize_token_shape (py "Le chat") crawler eq_refl)
    as [toks [s' [E [F _]]]].
  exists toks, s'. split; [exact E | exact F].
Defined.

Lemma tokenize_stopwords_witness :
  AbstractIndex.stemmer crawler_le = None /\
  exists s',
    AbstractIndex.tokenize (py "Le chat") crawler_le = (inr [py "chat"], s') /\
    In (py "le") (AbstractIndex.tokens s').
Proof.
  split; [reflexivity|].
  destruct (proj1 (tokenize_stopwords (py "Le chat") crawler_le eq_refl)
              (py "le") [] eq_refl) as [toks [s' [E [F [_ I]]]]].
  exists s'. split.
  - rewrite E. rewrite F. vm_compute. reflexivity.
  - apply I. vm_compute. left. reflexivity.
Defined.

Lemma main_non_positional_witness :
  scenario <> [] /\
  Forall has_title scenario /\
  exists st fs',
    main drop_final_s false (Some scenario) Dict.empty = (inr tt, fs') /\
    Dict.get fs' (py "metadata.json") = Some (DumpStatistics (Some st)) /\
    total_tokens st = 6.
Proof.
  assert (scenario <> []) as N by discriminate.
  assert (Forall has_title scenario) as T by all_titles.
  split; [exact N|]. split; [exact T|].
  destruct (main_non_positional drop_final_s scenario Dict.empty N T)
    as [b [st [fs' [_ [C [E [_ [_ [M _]]]]]]]]].
  exists st, fs'. split; [exact E|]. split; [exact M|].
  vm_compute in C. inversion C. reflexivity.
Defined.

Lemma main_positional_witness :
  scenario <> [] /\
  Forall has_title scenario /\
  exists b fs',
    main drop_final_s true (Some scenario) Dict.empty = (inr tt, fs') /\
    Dict.get fs' (py "title.pos_index.json")
    = Some (DumpPositions (PositionalIndex.index b)) /\
    Dict.get fs' (py "mon_stemmer.title.non_pos_index.json") = None.
Proof.
  assert (scenario <> []) as N by discriminate.
  assert (Forall has_title scenario) as T by all_titles.
  split; [exact N|]. split; [exact T|].
  destruct (main_positional drop_final_s scenario Dict.empty N T)
    as [b [st [fs' [_ [_ [E [P [_ F]]]]]]]].
  exists b, fs'. split; [exact E|]. split; [exact P|].
  rewrite F; [reflexivity | discriminate | discriminate].
Defined.
